(** * Conversation viewer: parser, cache, tree builder and session grouper

    A shallow embedding of [flask_app/utils/conversation_parser.py],
    [flask_app/utils/cache_manager.py] and [flask_app/utils/tree_builder.py],
    with the properties the specification states about them; and of the
    functions of [flask_app/app.py] and [flask_app/utils/sanitizer.py] that
    use them, with further properties read off the code.

    Conventions of the embedding.
    - A decoded JSON document is a [value]; a JSON object keeps its entries in
      an association list, read with [get].  [json.loads] leaves one entry
      per key (the last one written); on a list that repeats a key, [get]
      reads the first binding.
    - [Message] has the field types the dataclass declares.  The one
      exception is [timestamp], declared [str]: the decoder leaves the source
      number there when its conversion fails, so the field holds a [value].
    - A field the dataclass types as [str] is read from a record with
      [get_str]: a JSON value of another type is read as absent (Python would
      store it untyped; such records do not follow the log layout).
    - Python objects that are mutated and shared (the [children] lists filled
      by the tree builder) live in a store indexed by the position of the
      message in the list given to the builder.
    - An exception is a result [Raise]; recursion that Python bounds only by
      its stack is given fuel, and enough fuel is proved to exist. *)

From Stdlib Require Import ZArith String Ascii.
From stdpp Require Import base tactics option list sorting strings pretty gmap.

#[local] Set Warnings "-register-all".
Local Open Scope Z_scope.
Local Open Scope string_scope.

(** ** Python values and builtins *)

Module Py.

(** A Python float: only what [int(x)] needs.  [FFin n d] is [n / d]. *)
Inductive pyfloat :=
| FNan
| FInf (negative : bool)
| FFin (num : Z) (den : positive).

(** What [json.loads] produces. *)
Inductive value :=
| VNone
| VBool (b : bool)
| VInt (n : Z)
| VFloat (f : pyfloat)
| VStr (s : string)
| VList (l : list value)
| VDict (d : list (string * value)).

(** The result of a call that may raise. *)
Inductive result (A : Type) :=
| Ok (a : A)
| Raise.
Arguments Ok {A} a.
Arguments Raise {A}.

Definition bind {A B} (r : result A) (k : A → result B) : result B :=
  match r with Ok a => k a | Raise => Raise end.

Notation "x ← r ;;; k" := (bind r (λ x, k))
  (at level 20, r at level 100, k at level 200, right associativity).

(** [int(x)] for a number: truncation toward zero; [nan] and the infinities
    raise.  [bool] is a subclass of [int] in Python. *)
Definition int_of (v : value) : result Z :=
  match v with
  | VBool b => Ok (if b then 1 else 0)%Z
  | VInt n => Ok n
  | VFloat (FFin n d) => Ok (Z.quot n (Z.pos d))
  | _ => Raise
  end.

(** [isinstance(v, str)] and [isinstance(v, (int, float))]. *)
Definition is_str (v : value) : bool :=
  match v with VStr _ => true | _ => false end.
Definition is_number (v : value) : bool :=
  match v with VBool _ | VInt _ | VFloat _ => true | _ => false end.
Definition is_dict (v : value) : bool :=
  match v with VDict _ => true | _ => false end.

(** [d.get(k)] on the entries of a dict, [None] when the key is absent. *)
Fixpoint lookup_key (k : string) (d : list (string * value)) : option value :=
  match d with
  | [] => None
  | (k', v) :: d' => if String.eqb k' k then Some v else lookup_key k d'
  end.

(** [v.get(k, dflt)] and [v.get(k)]; a value that is not a dict has no
    entries (every use in the source is guarded by [isinstance(v, dict)]). *)
Definition get_or (v : value) (k : string) (dflt : value) : value :=
  match v with
  | VDict d => default dflt (lookup_key k d)
  | _ => dflt
  end.
Definition get (v : value) (k : string) : value := get_or v k VNone.

(** [k in v]. *)
Definition has_key (v : value) (k : string) : bool :=
  match v with
  | VDict d => bool_decide (is_Some (lookup_key k d))
  | _ => false
  end.

(** A field declared [Optional[str]]. *)
Definition as_str (v : value) : option string :=
  match v with VStr s => Some s | _ => None end.
Definition get_str (v : value) (k : string) : option string :=
  as_str (get v k).

(** [v == s] for a string literal [s], and [item.get('type') == t]. *)
Definition eq_str (v : value) (s : string) : bool :=
  match v with VStr s' => String.eqb s' s | _ => false end.
Definition type_is (item : value) (t : string) : bool :=
  eq_str (get item "type") t.

(** [s.replace(old, new)] for a one-character [old]. *)
Fixpoint replace_char (old : ascii) (new : string) (s : string) : string :=
  match s with
  | EmptyString => EmptyString
  | String c s' =>
      if Ascii.eqb c old then new ++ replace_char old new s'
      else String c (replace_char old new s')
  end.

(** ['\n'.join(parts)]. *)
Definition newline : string := String (ascii_of_nat 10) EmptyString.
Fixpoint join (sep : string) (parts : list string) : string :=
  match parts with
  | [] => ""
  | [p] => p
  | p :: ps => p ++ sep ++ join sep ps
  end.

(** *** [list.sort(key=...)]

    Python sorts with [<] on the keys and keeps the input order of elements
    whose keys are equal.  [sort] is the insertion sort with that behaviour:
    an element moves right only past keys strictly smaller than its own. *)
Section sort.
Context {A K : Type} (ltb : K → K → bool) (key : A → K).

Fixpoint insert (x : A) (l : list A) : list A :=
  match l with
  | [] => [x]
  | y :: l' => if ltb (key y) (key x) then y :: insert x l' else x :: l
  end.

Fixpoint sort (l : list A) : list A :=
  match l with
  | [] => []
  | x :: l' => insert x (sort l')
  end.

(** [a] may stand before [b] in a sorted list. *)
Definition key_le (a b : A) : Prop := ltb (key b) (key a) = false.
End sort.

(** The comparisons [list.sort] relies on: [<] is a strict total order. *)
Class KeyOrder {K : Type} (ltb : K → K → bool) := {
  ltb_asym a b : ltb a b = true → ltb b a = false;
  ltb_le_trans a b c : ltb b a = false → ltb c b = false → ltb c a = false;
  ltb_tricho a b : ltb a b = false → ltb b a = false → a = b;
}.

(** [a < b] on the values a sort key can hold: two strings compare
    lexicographically, two numbers numerically ([nan] is below nothing);
    another pair raises [TypeError].  (Python also orders two lists; no
    compared field holds one.) *)
Definition as_num (v : value) : option pyfloat :=
  match v with
  | VBool b => Some (FFin (if b then 1 else 0) 1)
  | VInt n => Some (FFin n 1)
  | VFloat f => Some f
  | _ => None
  end.

Definition float_lt (a b : pyfloat) : bool :=
  match a, b with
  | FNan, _ | _, FNan => false
  | FInf na, FInf nb => na && negb nb
  | FInf na, FFin _ _ => na
  | FFin _ _, FInf nb => negb nb
  | FFin n1 d1, FFin n2 d2 => (n1 * Z.pos d2 <? n2 * Z.pos d1)%Z
  end.

Definition value_lt (a b : value) : result bool :=
  match a, b with
  | VStr s, VStr t => Ok (String.ltb s t)
  | _, _ =>
      match as_num a, as_num b with
      | Some x, Some y => Ok (float_lt x y)
      | _, _ => Raise
      end
  end.

(** [list.sort(key=...)] when comparing two keys may raise: the same
    insertion sort, stopping at the first comparison that raises.  (With a
    [nan] among the keys the order Python returns depends on its algorithm;
    no statement below covers that case.) *)
Section sort_r.
Context {A K : Type} (lt : K → K → result bool) (key : A → K).

Fixpoint insert_r (x : A) (l : list A) : result (list A) :=
  match l with
  | [] => Ok [x]
  | y :: l' =>
      b ← lt (key y) (key x) ;;;
      if b : bool then l'' ← insert_r x l' ;;; Ok (y :: l'') else Ok (x :: l)
  end.

Fixpoint sort_r (l : list A) : result (list A) :=
  match l with
  | [] => Ok []
  | x :: l' => s ← sort_r l' ;;; insert_r x s
  end.
End sort_r.

End Py.

(** ** conversation_parser.py *)

Module Parser.
Import Py.

(** [@dataclass class Message], without [children]: the children list is a
    mutable object shared between the flat list and the tree, see [Tree]. *)
Record Message := mkMessage {
  uuid : string;
  timestamp : value;
  timestamp_ms : Z;
  type : string;
  content : value;
  parent_uuid : option string;
  session_id : option string;
  agent_id : option string;
  is_sidechain : bool;
  tool_name : option string;
  tool_use_id : option string;
  metadata : list (string * value);
  raw_data : value;
}.

(** The two calls into [datetime] that the decoder makes, [None] when the
    call raises:
    - [int(datetime.fromisoformat(s).timestamp() * 1000)];
    - [datetime.fromtimestamp(ms / 1000).isoformat()].
    The empty text is no ISO date. *)
Record datetime_lib := {
  fromisoformat_ms : string → option Z;
  fromtimestamp_iso : Z → option string;
  fromisoformat_empty : fromisoformat_ms "" = None;
}.

(** One line of a log file after [strip()] and [json.loads]. *)
Inductive line :=
| Blank
| Malformed
| Json (data : value).

(** A [*.jsonl] file: its lines, or a file whose reading raises. *)
Inductive file :=
| Unreadable
| Lines (ls : list line).

Section decoder.
Context (lib : datetime_lib).

(** The [try] block of [_parse_message]: the pair
    [(timestamp_str, timestamp_ms)] after it. *)
Definition extract_timestamp (data : value) : value * Z :=
  let timestamp_str := get_or data "timestamp" (VStr "") in
  if is_str timestamp_str then
    match as_str timestamp_str ≫= λ s,
          fromisoformat_ms lib (replace_char "Z" "+00:00" s) with
    | Some ms => (timestamp_str, ms)
    | None => (timestamp_str, 0)
    end
  else if is_number timestamp_str then
    match int_of timestamp_str with
    | Ok ms =>
        match fromtimestamp_iso lib ms with
        | Some iso => (VStr iso, ms)
        | None => (timestamp_str, 0)
        end
    | Raise => (timestamp_str, 0)
    end
  else (VStr "", 0).

(** [item.get('text', '')]. *)
Definition text_of (item : value) : value := get_or item "text" (VStr "").

(** ['\n'.join(parts)]: a [TypeError] unless every part is a [str]. *)
Definition join_lines (parts : list value) : result string :=
  match mapM as_str parts with
  | Some ss => Ok (join newline ss)
  | None => Raise
  end.

(** The loop over an assistant's content list. *)
Definition assistant_text_parts (content : list value) : list value :=
  text_of <$> List.filter (λ item, is_dict item && type_is item "text") content.

(** The loop over a user's content list: [inl item] when it returns the
    first tool result, [inr parts] when it runs to the end. *)
Fixpoint user_parts (content : list value) (parts : list value)
    : value + list value :=
  match content with
  | [] => inr parts
  | item :: rest =>
      if is_dict item then
        if type_is item "text" then user_parts rest (parts ++ [text_of item])
        else if type_is item "tool_result" then inl item
        else user_parts rest parts
      else user_parts rest parts
  end.

Definition text_or (parts : list value) (content : value) : result value :=
  match parts with
  | [] => Ok content
  | _ => s ← join_lines parts ;;; Ok (VStr s)
  end.

Definition _extract_content (data : value) (msg_type : string)
    : result value :=
  let fallback :=
    if has_key data "content" then Ok (get data "content")
    else if String.eqb msg_type "file-history-snapshot"
         then Ok (get_or data "snapshot" (VDict []))
    else Ok data in
  if has_key data "message" && is_dict (get data "message") then
    let message := get data "message" in
    if eq_str (get message "role") "assistant" then
      let content := get_or message "content" (VList []) in
      match content with
      | VList items => text_or (assistant_text_parts items) content
      | _ => Ok content
      end
    else if eq_str (get message "role") "user" then
      let content := get message "content" in
      match content with
      | VStr _ => Ok content
      | VList items =>
          match user_parts items [] with
          | inl item => Ok item
          | inr parts => text_or parts content
          end
      | _ => Ok content
      end
    else fallback
  else fallback.

(** The loop that fills [tool_name] and [tool_use_id]: the [tool_use]
    branch ends with [break], the [tool_result] branch does not. *)
Fixpoint scan_tool_blocks (msg_content : list value)
    (tool_name tool_use_id : option string) : option string * option string :=
  match msg_content with
  | [] => (tool_name, tool_use_id)
  | item :: rest =>
      if is_dict item && type_is item "tool_use" then
        (get_str item "name", get_str item "id")
      else if is_dict item && type_is item "tool_result" then
        scan_tool_blocks rest tool_name (get_str item "tool_use_id")
      else scan_tool_blocks rest tool_name tool_use_id
  end.

Definition extract_tool_info (data : value) (msg_type : string)
    : option string * option string :=
  if String.eqb msg_type "tool_use" || String.eqb msg_type "tool_result" then
    if has_key data "message" && is_dict (get data "message") then
      match get_or (get data "message") "content" (VList []) with
      | VList msg_content => scan_tool_blocks msg_content None None
      | _ => (None, None)
      end
    else (None, None)
  else (None, None).

Definition is_none (v : value) : bool :=
  match v with VNone => true | _ => false end.

Definition build_metadata (data : value) : list (string * value) :=
  List.filter (λ kv, negb (is_none kv.2))
    [ ("cwd", get data "cwd");
      ("version", get data "version");
      ("git_branch", get data "gitBranch");
      ("user_type", get data "userType");
      ("model", if is_dict (get data "message")
                then get (get data "message") "model" else VNone) ].

(** [Ok None]: the record has no id and is skipped.  [Raise]: an exception
    leaves the decoder ([data] is not a dict, or a text block does not hold
    a string). *)
Definition _parse_message (data : value) : result (option Message) :=
  if negb (is_dict data) then Raise else
  let msg_type := default "unknown" (get_str data "type") in
  match get_str data "uuid" with
  | None => Ok None
  | Some uuid =>
      if String.eqb uuid "" then Ok None else
      let '(timestamp_str, timestamp_ms) := extract_timestamp data in
      content ← _extract_content data msg_type ;;;
      let '(tool_name, tool_use_id) := extract_tool_info data msg_type in
      Ok (Some {|
        uuid := uuid;
        timestamp := timestamp_str;
        timestamp_ms := timestamp_ms;
        type := msg_type;
        content := content;
        parent_uuid := get_str data "parentUuid";
        session_id := get_str data "sessionId";
        agent_id := get_str data "agentId";
        is_sidechain :=
          match get data "isSidechain" with VBool b => b | _ => false end;
        tool_name := tool_name;
        tool_use_id := tool_use_id;
        metadata := build_metadata data;
        raw_data := data |})
  end.

(** One line contributes at most one message; a blank line, a JSON error,
    a record without id and a decoder exception contribute none. *)
Definition parse_line (l : line) : option Message :=
  match l with
  | Blank | Malformed => None
  | Json data =>
      match _parse_message data with
      | Ok (Some message) => Some message
      | _ => None
      end
  end.

Definition _parse_file (f : list line) : list Message := omap parse_line f.

(** The loop of [parse_all] before the sort: an unreadable file is logged
    and skipped. *)
Definition collect (jsonl_files : list file) : list Message :=
  jsonl_files ≫= λ f,
    match f with
    | Unreadable => []
    | Lines ls => _parse_file ls
    end.

(** [jsonl_files] is the result of [glob], in the order it enumerates. *)
Definition parse_all (jsonl_files : list file) : list Message :=
  sort Z.ltb timestamp_ms (collect jsonl_files).
End decoder.

End Parser.

(** ** cache_manager.py *)

Module Cache.
Import Py Parser.

(** A [Message] object as the cache handles it: the fields and the list of
    child objects. *)
Inductive MessageObj := mkObj {
  fields : Message;
  children : list MessageObj;
}.

Definition of_opt_str (o : option string) : value :=
  match o with Some s => VStr s | None => VNone end.

(** [dataclasses.asdict(self)]: every field, in declaration order; the
    children are converted recursively. *)
Fixpoint asdict (self : MessageObj) : value :=
  let m := fields self in
  VDict [ ("uuid", VStr (uuid m));
          ("timestamp", timestamp m);
          ("timestamp_ms", VInt (timestamp_ms m));
          ("type", VStr (type m));
          ("content", content m);
          ("parent_uuid", of_opt_str (parent_uuid m));
          ("session_id", of_opt_str (session_id m));
          ("agent_id", of_opt_str (agent_id m));
          ("is_sidechain", VBool (is_sidechain m));
          ("tool_name", of_opt_str (tool_name m));
          ("tool_use_id", of_opt_str (tool_use_id m));
          ("metadata", VDict (metadata m));
          ("children", VList (List.map asdict (children self)));
          ("raw_data", raw_data m) ].

(** [data.pop(k, None)]. *)
Definition pop (k : string) (data : value) : value :=
  match data with
  | VDict d => VDict (List.filter (λ kv, negb (String.eqb kv.1 k)) d)
  | _ => data
  end.

Definition to_dict (self : MessageObj) : value := pop "children" (asdict self).

(** Reading the keyword arguments of the constructor call.  A required
    field that is missing raises [TypeError].  The dataclass does not check
    the types of its arguments; an entry that does not have the declared
    type, or a [children] entry that is not empty, is in no payload written
    by [set] and is read here as a corrupt payload. *)
Definition req (d : list (string * value)) (k : string) : result value :=
  match lookup_key k d with Some v => Ok v | None => Raise end.
Definition req_str (d : list (string * value)) (k : string) : result string :=
  match lookup_key k d with Some (VStr s) => Ok s | _ => Raise end.
Definition req_int (d : list (string * value)) (k : string) : result Z :=
  match lookup_key k d with Some (VInt n) => Ok n | _ => Raise end.
Definition opt_str (d : list (string * value)) (k : string)
    : result (option string) :=
  match lookup_key k d with
  | None | Some VNone => Ok None
  | Some (VStr s) => Ok (Some s)
  | _ => Raise
  end.
Definition opt_bool (d : list (string * value)) (k : string) : result bool :=
  match lookup_key k d with
  | None => Ok false
  | Some (VBool b) => Ok b
  | _ => Raise
  end.
Definition opt_dict (d : list (string * value)) (k : string)
    : result (list (string * value)) :=
  match lookup_key k d with
  | None => Ok []
  | Some (VDict m) => Ok m
  | _ => Raise
  end.
Definition no_children (d : list (string * value)) : result unit :=
  match lookup_key "children" d with
  | None | Some (VList []) => Ok ()
  | _ => Raise
  end.

Definition field_names : list string :=
  [ "uuid"; "timestamp"; "timestamp_ms"; "type"; "content"; "parent_uuid";
    "session_id"; "agent_id"; "is_sidechain"; "tool_name"; "tool_use_id";
    "metadata"; "children"; "raw_data" ].

(** The constructor call with the entries of [msg_data] as keyword
    arguments: an unexpected keyword raises [TypeError]; the new object has
    the default, empty [children]. *)
Definition Message_of_kwargs (msg_data : value) : result MessageObj :=
  match msg_data with
  | VDict d =>
      if forallb (λ kv, bool_decide (kv.1 ∈ field_names)) d then
        uuid ← req_str d "uuid" ;;;
        timestamp ← req d "timestamp" ;;;
        timestamp_ms ← req_int d "timestamp_ms" ;;;
        type ← req_str d "type" ;;;
        content ← req d "content" ;;;
        parent_uuid ← opt_str d "parent_uuid" ;;;
        session_id ← opt_str d "session_id" ;;;
        agent_id ← opt_str d "agent_id" ;;;
        is_sidechain ← opt_bool d "is_sidechain" ;;;
        tool_name ← opt_str d "tool_name" ;;;
        tool_use_id ← opt_str d "tool_use_id" ;;;
        metadata ← opt_dict d "metadata" ;;;
        _ ← no_children d ;;;
        Ok (mkObj (mkMessage uuid timestamp timestamp_ms type content
                     parent_uuid session_id agent_id is_sidechain tool_name
                     tool_use_id metadata
                     (default (VDict []) (lookup_key "raw_data" d))) [])
      else Raise
  | _ => Raise
  end.

Fixpoint map_r {A B} (f : A → result B) (l : list A) : result (list B) :=
  match l with
  | [] => Ok []
  | x :: l' => y ← f x ;;; ys ← map_r f l' ;;; Ok (y :: ys)
  end.

(** What the manager calls outside Python's core: the hash, path
    resolution, the text of a float and the clock's text. *)
Record env := {
  md5_hex : string → string;
  resolve : string → string;
  str_of_mtime : Z → string;
  isoformat : Z → string;
}.

(** A file of the cache directory: its [st_mtime] and what [pickle.load]
    returns for it ([None] when it raises).  [pickle.dump] followed by
    [pickle.load] gives back an equal value, so a file written by [set]
    holds the value that was dumped. *)
Record cache_file := {
  cf_mtime : Z;
  cf_payload : option value;
}.

(** The file system and clock as the manager observes them.  Times are exact
    numbers; a project is named by its path.  [log_mtimes p] lists the
    [st_mtime] of the [*.jsonl] files of project [p], or raises;
    [cache_writable] tells whether opening the cache file for writing and
    dumping into it succeed. *)
Record world := {
  log_mtimes : string → result (list Z);
  cache_files : gmap string cache_file;
  cache_writable : bool;
  now : Z;
}.

Record CacheManager := {
  ttl_seconds : Z;
}.

Section manager.
Context (e : env) (self : CacheManager).

(** [max(f.stat().st_mtime for f in files)] for a non-empty [files]. *)
Definition latest (m : Z) (ms : list Z) : Z := foldr Z.max m ms.

Definition key_str (w : world) (project_path : string) : string :=
  let path_str := resolve e project_path in
  match log_mtimes w project_path with
  | Ok (m :: ms) => path_str ++ "_" ++ str_of_mtime e (latest m ms)
  | Ok [] => path_str
  | Raise => path_str
  end.

Definition get_cache_key (w : world) (project_path : string) : string :=
  md5_hex e (key_str w project_path).

Definition get_cache_path (cache_key : string) : string :=
  cache_key ++ ".cache".

Definition is_cache_valid (w : world) (cache_path : string) : bool :=
  match cache_files w !! cache_path with
  | None => false
  | Some f =>
      let age_seconds := (now w - cf_mtime f)%Z in
      if (age_seconds >? ttl_seconds self)%Z then false else true
  end.

(** The loop of [get] over [messages_data]: iterating a dict or a string
    yields strings, on which the constructor call raises. *)
Definition load_messages (messages_data : value)
    : result (list MessageObj) :=
  match messages_data with
  | VList l => map_r Message_of_kwargs l
  | VDict [] | VStr "" => Ok []
  | _ => Raise
  end.

Definition get (w : world) (project_path : string)
    : option (list MessageObj) :=
  let cache_key := get_cache_key w project_path in
  let cache_path := get_cache_path cache_key in
  if negb (is_cache_valid w cache_path) then None else
  match cache_files w !! cache_path ≫= cf_payload with
  | None => None
  | Some cached_data =>
      if negb (is_dict cached_data) then None else
      match load_messages (get_or cached_data "messages" (VList [])) with
      | Ok messages => Some messages
      | Raise => None
      end
  end.

(** Returns the success flag and the world after the call; the new file
    carries the time of the write. *)
Definition set (w : world) (project_path : string)
    (messages : list MessageObj) : bool * world :=
  let cache_key := get_cache_key w project_path in
  let cache_path := get_cache_path cache_key in
  let messages_data := to_dict <$> messages in
  let cache_data :=
    VDict [ ("project_path", VStr project_path);
            ("cached_at", VStr (isoformat e (now w)));
            ("message_count", VInt (Z.of_nat (length messages)));
            ("messages", VList messages_data) ] in
  if cache_writable w then
    (true,
     {| log_mtimes := log_mtimes w;
        cache_files :=
          <[cache_path := {| cf_mtime := now w;
                             cf_payload := Some cache_data |}]>
            (cache_files w);
        cache_writable := cache_writable w;
        now := now w |})
  else (false, w).
End manager.

(** [pattern] as [glob] reads [*.cache]: the name ends with the suffix. *)
Fixpoint ends_with (name suffix : string) : bool :=
  String.eqb name suffix ||
  match name with
  | EmptyString => false
  | String _ name' => ends_with name' suffix
  end.

Section clearing.
Context (e : env).

(** [clear]: [can_unlink] tells on which paths [unlink()] succeeds.  With a
    project the call removes the file of the project's current key, and an
    [unlink] that fails raises; without one it goes through the [*.cache]
    files of the directory and skips those it cannot remove. *)
Definition clear (can_unlink : string → bool) (w : world)
    (project_path : option string) : result (nat * world) :=
  let without files := {| log_mtimes := log_mtimes w;
                          cache_files := files;
                          cache_writable := cache_writable w;
                          now := now w |} in
  match project_path with
  | Some project_path =>
      let cache_key := get_cache_key e w project_path in
      let cache_path := get_cache_path cache_key in
      match cache_files w !! cache_path with
      | Some _ =>
          if can_unlink cache_path
          then Ok (1%nat, without (delete cache_path (cache_files w)))
          else Raise
      | None => Ok (0%nat, w)
      end
  | None =>
      let removed name := ends_with name ".cache" && can_unlink name in
      Ok (size (filter (λ kv, removed kv.1 = true) (cache_files w)),
          without (filter (λ kv, removed kv.1 = false) (cache_files w)))
  end.
End clearing.

End Cache.

(** ** tree_builder.py *)

Module Tree.
Import Py Parser.

(** A message object is named by its position in the list given to the
    builder (the parser and the cache create one object per entry).  [store]
    holds the [children] list of every object; it is all empty when the
    builder starts, [children] being filled by the builder only. *)
Abbreviation store := (list (list nat)).

Record MessageTreeBuilder := mkBuilder {
  messages : list Message;
  message_map : gmap string nat;
  root_messages : list nat;
  children : store;
}.

(** [m.timestamp_ms] of the object at position [i]. *)
Definition ts (messages : list Message) (i : nat) : Z :=
  default 0 (timestamp_ms <$> messages !! i).

(** First loop of [build]: a later message with the same [uuid] replaces
    the earlier one in the map. *)
Definition index_step (messages : list Message) (mp : gmap string nat)
    (i : nat) : gmap string nat :=
  match messages !! i with
  | Some message => <[uuid message := i]> mp
  | None => mp
  end.

Definition index_uuids (messages : list Message) : gmap string nat :=
  foldl (index_step messages) ∅ (seq 0 (length messages)).

(** [message.parent_uuid and message.parent_uuid in self.message_map],
    giving [self.message_map[message.parent_uuid]]. *)
Definition parent_index (mp : gmap string nat) (message : Message)
    : option nat :=
  match parent_uuid message with
  | Some p => if String.eqb p "" then None else mp !! p
  | None => None
  end.

(** Second loop of [build], on the pair of [root_messages] and the store. *)
Definition link_step (messages : list Message) (mp : gmap string nat)
    (st : list nat * store) (i : nat) : list nat * store :=
  match messages !! i with
  | Some message =>
      match parent_index mp message with
      | Some parent => (st.1, alter (λ cs, (cs ++ [i])%list) parent st.2)
      | None => ((st.1 ++ [i])%list, st.2)
      end
  | None => st
  end.

Definition link_all (messages : list Message) (mp : gmap string nat)
    : list nat * store :=
  foldl (link_step messages mp) ([], replicate (length messages) [])
    (seq 0 (length messages)).

(** The loop runs over the list as it is when the call starts; the list
    object itself is sorted again only if the walk comes back to its owner. *)
Fixpoint _sort_children_recursive (fuel : nat) (key : nat → Z)
    (msgs : list nat) (st : store) : option store :=
  match fuel with
  | O => None
  | S fuel' =>
      foldl (λ acc message,
               st ← acc;
               match st !!! message with
               | [] => Some st
               | _ =>
                   let st' := <[message := sort Z.ltb key (st !!! message)]> st in
                   _sort_children_recursive fuel' key (st' !!! message) st'
               end)
            (Some st) msgs
  end.

(** [None]: the recursion did not end within the fuel. *)
Definition build (messages : list Message) : option MessageTreeBuilder :=
  let mp := index_uuids messages in
  let '(roots, st) := link_all messages mp in
  let roots := sort Z.ltb (ts messages) roots in
  st' ← _sort_children_recursive (S (length messages)) (ts messages) roots st;
  Some (mkBuilder messages mp roots st').

Fixpoint get_depth (fuel : nat) (st : store) (message : nat)
    (current_depth : nat) : option nat :=
  match fuel with
  | O => None
  | S fuel' =>
      match st !!! message with
      | [] => Some current_depth
      | cs =>
          ds ← mapM (λ child, get_depth fuel' st child (S current_depth)) cs;
          Some (max_list ds)
      end
  end.

Definition _calculate_max_depth (self : MessageTreeBuilder) : option nat :=
  match root_messages self with
  | [] => Some 0%nat
  | roots =>
      ds ← mapM (λ msg, get_depth (S (length (messages self)))
                          (children self) msg 0) roots;
      Some (max_list ds)
  end.

Fixpoint traverse (fuel : nat) (st : store) (message : nat) (depth : nat)
    : option (list (nat * nat)) :=
  match fuel with
  | O => None
  | S fuel' =>
      below ← mapM (λ child, traverse fuel' st child (S depth)) (st !!! message);
      Some ((message, depth) :: concat below)
  end.

Definition flatten_with_depth (self : MessageTreeBuilder)
    : option (list (nat * nat)) :=
  flat ← mapM (λ root, traverse (S (length (messages self)))
                         (children self) root 0) (root_messages self);
  Some (concat flat).

(** *** SessionGrouper *)

Definition session_key (message : Message) : string :=
  match session_id message with
  | Some s => if String.eqb s "" then "unknown" else s
  | None => "unknown"
  end.

(** [sessions[k].append(m)], after creating [sessions[k]] when [k] is new;
    a dict keeps its keys in insertion order. *)
Fixpoint dict_append {A} (k : string) (m : A) (sessions : list (string * list A))
    : list (string * list A) :=
  match sessions with
  | [] => [(k, [m])]
  | (k', l) :: rest =>
      if String.eqb k' k then (k', (l ++ [m])%list) :: rest
      else (k', l) :: dict_append k m rest
  end.

Definition group_by_session (messages : list Message)
    : list (string * list Message) :=
  let sessions :=
    foldl (λ sessions message,
             dict_append (session_key message) message sessions) [] messages in
  (λ kv, (kv.1, sort Z.ltb timestamp_ms kv.2)) <$> sessions.

Record SessionInfo := {
  info_session_id : string;
  message_count : nat;
  first_timestamp : value;
  last_timestamp : value;
  duration_ms : Z;
  agents_used : gset string;
  message_types : list (string * nat);
}.

(** [d[k] = d.get(k, 0) + 1]. *)
Fixpoint count_up (k : string) (d : list (string * nat))
    : list (string * nat) :=
  match d with
  | [] => [(k, 1%nat)]
  | (k', c) :: rest =>
      if String.eqb k' k then (k', S c) :: rest else (k', c) :: count_up k rest
  end.

Definition truthy_str (o : option string) : option string :=
  match o with
  | Some s => if String.eqb s "" then None else Some s
  | None => None
  end.

Definition session_summary (kv : string * list Message) : option SessionInfo :=
  match kv.2 with
  | [] => None
  | first_msg :: _ =>
      let last_msg := List.last kv.2 first_msg in
      Some {|
        info_session_id := kv.1;
        message_count := length kv.2;
        first_timestamp := timestamp first_msg;
        last_timestamp := timestamp last_msg;
        duration_ms := timestamp_ms last_msg - timestamp_ms first_msg;
        agents_used := list_to_set (omap (λ m, truthy_str (agent_id m)) kv.2);
        message_types := foldl (λ d m, count_up (type m) d) [] kv.2 |}
  end.

Definition get_session_info (messages : list Message)
    : result (list SessionInfo) :=
  let sessions := group_by_session messages in
  let session_info := omap session_summary sessions in
  sort_r value_lt first_timestamp session_info.

(** *** Statistics *)

Definition _count_message_types (messages : list Message)
    : list (string * nat) :=
  foldl (λ type_counts message, count_up (type message) type_counts)
    [] messages.

(** The dict returned by [get_statistics]; the entries [root_messages] and
    [message_types] are prefixed here. *)
Record Statistics := {
  total_messages : nat;
  stat_root_messages : nat;
  max_depth : nat;
  stat_message_types : list (string * nat);
  sidechains : nat;
  sessions : nat;
  agents : nat;
}.

(** [len(set(m.f for m in messages if m.f))]. *)
Definition count_distinct (f : Message → option string)
    (messages : list Message) : nat :=
  size (list_to_set (C := gset string) (omap (λ m, truthy_str (f m)) messages)).

Definition get_statistics (self : MessageTreeBuilder) : option Statistics :=
  depth ← _calculate_max_depth self;
  Some {|
    total_messages := length (messages self);
    stat_root_messages := length (root_messages self);
    max_depth := depth;
    stat_message_types := _count_message_types (messages self);
    sidechains := length (filter (λ m, is_sidechain m = true) (messages self));
    sessions := count_distinct session_id (messages self);
    agents := count_distinct agent_id (messages self) |}.

End Tree.

(** ** app.py *)

Module App.
Import Py Parser.

(** [s.split(sep)] for a one-character separator. *)
Fixpoint split (sep : ascii) (s : string) : list string :=
  match s with
  | EmptyString => [EmptyString]
  | String c s' =>
      if Ascii.eqb c sep then EmptyString :: split sep s'
      else match split sep s' with
           | p :: ps => String c p :: ps
           | [] => [String c EmptyString]
           end
  end.

(** [parts.index(x)]; [None] stands for [ValueError]. *)
Fixpoint index (x : string) (parts : list string) : option nat :=
  match parts with
  | [] => None
  | p :: ps => if String.eqb p x then Some 0%nat else S <$> index x ps
  end.

(** The name [get_available_projects] shows for the project directory
    [path_encoded]: what follows the first component [dev], or the
    directory name itself ([project_name or path_encoded]). *)
Definition project_name (path_encoded : string) : string :=
  let parts := split "-" path_encoded in
  let project_name :=
    match index "dev" parts with
    | Some dev_index => join "-" (drop (S dev_index) parts)
    | None => path_encoded
    end in
  if String.eqb project_name "" then path_encoded else project_name.

(** An entry of the conversations directory: its name, whether it is a
    directory, and the number of [*.jsonl] files in it ([Raise] when
    listing them raises). *)
Record dir_entry := {
  entry_name : string;
  entry_is_dir : bool;
  entry_logs : result nat;
}.

(** A project as listed: the dict with the keys [id], [name], [path] and
    [file_count]. *)
Record Project := {
  project_id : string;
  name : string;
  path : string;
  file_count : nat;
}.

Section projects.
(** [str.lower], and the text of the conversations directory. *)
Context (lower : string → string) (CONVERSATIONS_DIR : string).

(** The body of the loop: [Ok None] where it says [continue]. *)
Definition project_of (project_dir : dir_entry) : result (option Project) :=
  if negb (entry_is_dir project_dir) then Ok None
  else if String.prefix "." (entry_name project_dir) then Ok None
  else
    n ← entry_logs project_dir ;;;
    if Nat.eqb n 0 then Ok None
    else
      let path_encoded := entry_name project_dir in
      Ok (Some {| project_id := path_encoded;
                  name := project_name path_encoded;
                  path := CONVERSATIONS_DIR ++ "/" ++ path_encoded;
                  file_count := n |}).

(** [listing] is what [iterdir()] yields, [Raise] when it raises; any
    exception gives the empty list. *)
Definition get_available_projects (listing : result (list dir_entry))
    : list Project :=
  match entries ← listing ;;; Cache.map_r project_of entries with
  | Ok projects =>
      sort String.ltb (λ p, lower (name p)) (omap (λ p, p) projects)
  | Raise => []
  end.
End projects.

(** What [parse_conversation] returns: the flat list, the tree, and the
    statistics with their entry [sessions_info]. *)
Record Conversation := {
  conv_messages : list Message;
  conv_tree : Tree.MessageTreeBuilder;
  conv_stats : Tree.Statistics;
  sessions_info : list Tree.SessionInfo;
}.

Section app.
Context (lib : datetime_lib) (e : Cache.env)
  (cache_manager : Cache.CacheManager) (CACHE_ENABLED : bool).

(** The objects the parser hands to the cache: no children yet. *)
Definition fresh (messages : list Message) : list Cache.MessageObj :=
  (λ m, Cache.mkObj m []) <$> messages.

(** One call of [parse_conversation].  [project] holds the log files of the
    project directory, [None] when there is no such directory
    ([FileNotFoundError]); the project is named by its path.  The result is
    [Ok None] when a recursion does not end within its fuel. *)
Definition parse_conversation (w : Cache.world) (project_path : string)
    (project : option (list file)) (use_cache : bool)
    : result (option (Conversation * Cache.world)) :=
  match project with
  | None => Raise
  | Some jsonl_files =>
      let cached :=
        if use_cache && CACHE_ENABLED
        then Cache.get e cache_manager w project_path else None in
      let '(messages, w') :=
        match cached with
        | Some objs => (Cache.fields <$> objs, w)
        | None =>
            let messages := parse_all lib jsonl_files in
            (messages,
             if CACHE_ENABLED
             then (Cache.set e w project_path (fresh messages)).2 else w)
        end in
      match Tree.build messages with
      | None => Ok None
      | Some tree =>
          match Tree.get_statistics tree with
          | None => Ok None
          | Some stats =>
              session_info ← Tree.get_session_info messages ;;;
              Ok (Some ({| conv_messages := messages; conv_tree := tree;
                           conv_stats := stats;
                           sessions_info := session_info |}, w'))
          end
      end
  end.
End app.

(** The message object at position [i] of a built tree, with the objects
    of its children lists below it: what [dataclasses.asdict] walks through.
    [None]: the walk does not end within the fuel. *)
Fixpoint object_at (fuel : nat) (messages : list Message) (st : Tree.store)
    (i : nat) : option Cache.MessageObj :=
  match fuel with
  | O => None
  | S fuel' =>
      m ← messages !! i;
      cs ← mapM (object_at fuel' messages st) (st !!! i);
      Some (Cache.mkObj m cs)
  end.

(** [[msg.to_dict() for msg in messages]] in [api_conversation], after the
    tree has been built. *)
Definition messages_data (fuel : nat) (tree : Tree.MessageTreeBuilder)
    : option (list value) :=
  mapM (λ i, Cache.to_dict
               <$> object_at fuel (Tree.messages tree) (Tree.children tree) i)
    (seq 0 (length (Tree.messages tree))).

End App.

(** ** sanitizer.py *)

Module Sanitizer.
Import Py.

Section sanitizer.
(** [_sanitize_string]: the two substitutions of the compiled patterns,
    taken from the [re] library as they are. *)
Context (_sanitize_string : string → string).

Fixpoint _sanitize_recursive (data : value) : value :=
  match data with
  | VStr s => VStr (_sanitize_string s)
  | VDict d =>
      VDict (List.map (λ kv, match kv with
                             | (key, v) => (key, _sanitize_recursive v)
                             end) d)
  | VList l => VList (List.map _sanitize_recursive l)
  | _ => data
  end.

Definition sanitize (enabled : bool) (data : value) : value :=
  if enabled then _sanitize_recursive data else data.
End sanitizer.

End Sanitizer.

(** ** Notions used to state the properties *)

Module Notions.
Import Py Parser.

(** The elements of [l] whose key is [k], in the order of [l]. *)
Definition with_key {A K} `{!EqDecision K} (key : A → K) (k : K) (l : list A)
    : list A :=
  filter (λ a, key a = k) l.

(** Ascending, ties allowed. *)
Definition ascending {A} (key : A → Z) (l : list A) : Prop :=
  StronglySorted (λ a b, (key a ≤ key b)%Z) l.

(** The messages one file contributes. *)
Definition file_messages (lib : datetime_lib) (f : file) : list Message :=
  match f with
  | Unreadable => []
  | Lines ls => _parse_file lib ls
  end.

(** File [f] holds a message with [timestamp_ms = t]. *)
Definition has_timestamp (lib : datetime_lib) (t : Z) (f : file) : Prop :=
  Exists (λ m, timestamp_ms m = t) (file_messages lib f).

(** No timestamp occurs in two files of the source. *)
Definition no_tie_across_files (lib : datetime_lib) (files : list file) : Prop :=
  ∀ t, (length (filter (has_timestamp lib t) files) ≤ 1)%nat.

(** The record is a JSON object with a non-empty [uuid]. *)
Definition has_id (data : value) : Prop :=
  is_dict data = true ∧ ∃ id, get_str data "uuid" = Some id ∧ id ≠ "".

(** Decoding returns a message. *)
Definition decodes (lib : datetime_lib) (data : value) : Prop :=
  ∃ m, _parse_message lib data = Ok (Some m).

(** [data.get('type', 'unknown')]. *)
Definition record_type (data : value) : string :=
  default "unknown" (get_str data "type").

(** The number [v] cannot be turned into a date: [int(v)] raises, or the
    date is out of range. *)
Definition conversion_fails (lib : datetime_lib) (v : value) : Prop :=
  match int_of v with
  | Ok ms => fromtimestamp_iso lib ms = None
  | Raise => True
  end.

(** The timestamp field as C7 reads it: missing, a text that does not parse,
    a number that does not convert, or of another JSON type (null, boolean,
    list, object). *)
Definition unusable_timestamp (lib : datetime_lib) (data : value) : Prop :=
  match data with
  | VDict d =>
      match lookup_key "timestamp" d with
      | None => True
      | Some (VStr s) => fromisoformat_ms lib (replace_char "Z" "+00:00" s) = None
      | Some (VInt n) => conversion_fails lib (VInt n)
      | Some (VFloat f) => conversion_fails lib (VFloat f)
      | Some _ => True
      end
  | _ => True
  end.

(** C7 as stated. *)
Definition timestamp_robust (lib : datetime_lib) : Prop :=
  ∀ data, has_id data →
    ∃ m, _parse_message lib data = Ok (Some m) ∧
         (unusable_timestamp lib data → timestamp_ms m = 0%Z).

(** The same with a boolean read as Python reads it, as the number 0 or 1. *)
Definition timestamp_falls_back (lib : datetime_lib) (data : value) : Prop :=
  match data with
  | VDict d =>
      match lookup_key "timestamp" d with
      | None => True
      | Some (VStr s) => fromisoformat_ms lib (replace_char "Z" "+00:00" s) = None
      | Some (VBool b) => conversion_fails lib (VBool b)
      | Some (VInt n) => conversion_fails lib (VInt n)
      | Some (VFloat f) => conversion_fails lib (VFloat f)
      | Some _ => True
      end
  | _ => True
  end.

(** [data] with its timestamp field set to [v]. *)
Fixpoint set_entry (k : string) (v : value) (d : list (string * value))
    : list (string * value) :=
  match d with
  | [] => [(k, v)]
  | (k', v') :: d' =>
      if String.eqb k' k then (k', v) :: d' else (k', v') :: set_entry k v d'
  end.
Definition with_timestamp (v : value) (data : value) : value :=
  match data with
  | VDict d => VDict (set_entry "timestamp" v d)
  | _ => data
  end.

(** A message object with the same fields and no children: what the cache
    gives back for a message, whatever its children were. *)
Definition without_children (o : Cache.MessageObj) : Cache.MessageObj :=
  Cache.mkObj (Cache.fields o) [].

(** The latest modification time among the log files of a project, if it has
    any (and they can be listed). *)
Definition latest_mtime (w : Cache.world) (project_path : string) : option Z :=
  match Cache.log_mtimes w project_path with
  | Ok (m :: ms) => Some (Cache.latest m ms)
  | _ => None
  end.

(** The messages of session [s], ascending in [timestamp_ms] (stably). *)
Definition session_group (messages : list Message) (s : string) : list Message :=
  sort Z.ltb timestamp_ms (filter (λ m, Tree.session_key m = s) messages).





(** The object that the builder makes the parent of object [i]: the last
    message whose [uuid] is the non-empty [parent_uuid] of message [i]. *)
Definition parent_of (messages : list Message) (i : nat) : option nat :=
  messages !! i ≫= Tree.parent_index (Tree.index_uuids messages).

(** The [k]-th ancestor of [i] along [parent_of]. *)
Fixpoint ancestor (messages : list Message) (k : nat) (i : nat) : option nat :=
  match k with
  | O => Some i
  | S k' => parent_of messages i ≫= ancestor messages k'
  end.

(** [i] lies on a cycle of parent references (a self-loop when [k = 0]). *)
Definition on_cycle (messages : list Message) (i : nat) : Prop :=
  ∃ k, ancestor messages (S k) i = Some i.

(** The parent reference of message [i] resolves to message [j]: [j] is
    the last message of the list whose [uuid] is the non-empty
    [parent_uuid] of [i]. *)
Definition resolves_to (messages : list Message) (i j : nat) : Prop :=
  ∃ m p mj, messages !! i = Some m ∧ parent_uuid m = Some p ∧ p ≠ "" ∧
    messages !! j = Some mj ∧ uuid mj = p ∧
    ∀ j' m', messages !! j' = Some m' → uuid m' = p → (j' ≤ j)%nat.

(** [i] is on a cycle of parent references or has an ancestor on one. *)
Definition behind_cycle (messages : list Message) (i : nat) : Prop :=
  ∃ k c, ancestor messages k i = Some c ∧ on_cycle messages c.

(** [i] is [d] parent steps below a message that has no parent object. *)
Definition rooted (messages : list Message) (d : nat) (i : nat) : Prop :=
  ∃ r, ancestor messages d i = Some r ∧ parent_of messages r = None ∧
       (r < length messages)%nat.

(** The objects whose parent is [j], in input order. *)
Definition children_of (messages : list Message) (j : nat) : list nat :=
  filter (λ i, parent_of messages i = Some j) (seq 0 (length messages)).

(** Two stores that hold the same children for every object, up to order. *)
Definition same_children (st st' : Tree.store) : Prop := Forall2 (≡ₚ) st st'.

(** [i] followed by its first [d] ancestors, as far as they exist. *)
Fixpoint lineage (messages : list Message) (d : nat) (i : nat) : list nat :=
  i :: match d with
       | O => []
       | S d' =>
           match parent_of messages i with
           | Some p => lineage messages d' p
           | None => []
           end
       end.

(** A store that holds, for every object, its children up to order. *)
Definition store_ok (messages : list Message) (st : Tree.store) : Prop :=
  length st = length messages ∧ ∀ j, st !!! j ≡ₚ children_of messages j.

(** The state of the grouping loop after the messages [done]: one entry per
    session seen, holding the messages of that session in input order. *)
Definition grouped (done : list Message)
    (sessions : list (string * list Message)) : Prop :=
  NoDup sessions.*1 ∧
  (∀ k, k ∈ sessions.*1 ↔ k ∈ Tree.session_key <$> done) ∧
  Forall (λ kv, kv.2 = filter (λ m, Tree.session_key m = kv.1) done) sessions.

(** What a walk from [c], taken at depth [e], lists: the objects below [c]
    with their depths, each once; and the same for walks from each of [cs]. *)
Definition lists_subtree (messages : list Message) (e c : nat)
    (out : list (nat * nat)) : Prop :=
  NoDup out.*1 ∧
  ∀ x y, (x, y) ∈ out ↔ ∃ k, ancestor messages k x = Some c ∧ y = (k + e)%nat.

Definition lists_subtrees (messages : list Message) (e : nat) (cs : list nat)
    (out : list (nat * nat)) : Prop :=
  NoDup out.*1 ∧
  ∀ x y, (x, y) ∈ out
         ↔ ∃ c k, c ∈ cs ∧ ancestor messages k x = Some c ∧ y = (k + e)%nat.


(** The blocks of [data['message']['content']] when that is a list. *)
Definition content_items (data : value) : list value :=
  match get_or (get data "message") "content" (VList []) with
  | VList items => items
  | _ => []
  end.

(** [item] is a block of type [t]. *)
Definition block_of_type (t : string) (item : value) : Prop :=
  is_dict item = true ∧ type_is item t = true.

(** Every text block of the record holds a string (or no [text] at all). *)
Definition texts_are_strings (data : value) : Prop :=
  Forall (λ item, block_of_type "text" item → is_str (text_of item) = true)
    (content_items data).



(** [j] is one of [msgs] or lies below one of them. *)
Definition below (messages : list Message) (msgs : list nat) (j : nat)
    : Prop :=
  ∃ m k, m ∈ msgs ∧ ancestor messages k j = Some m.

(** The character [c] occurs in [s]. *)
Fixpoint mentions (c : ascii) (s : string) : bool :=
  match s with
  | EmptyString => false
  | String c' s' => Ascii.eqb c' c || mentions c s'
  end.


(** A value with its strings blanked: what is left is its structure, the
    keys of its objects and its numbers, booleans and nulls. *)
Fixpoint skeleton (v : value) : value :=
  match v with
  | VStr _ => VStr ""
  | VList l => VList (List.map skeleton l)
  | VDict d =>
      VDict (List.map (λ kv, match kv with (k, x) => (k, skeleton x) end) d)
  | _ => v
  end.

(** The directory entry [project_dir] is a project, listed as [p]: a
    directory whose name does not start with a dot and which holds at least
    one log file. *)
Definition shows (CONVERSATIONS_DIR : string) (project_dir : App.dir_entry)
    (p : App.Project) : Prop :=
  App.entry_is_dir project_dir = true ∧
  String.prefix "." (App.entry_name project_dir) = false ∧
  (∃ n, App.entry_logs project_dir = Ok (S n) ∧ App.file_count p = S n) ∧
  App.project_id p = App.entry_name project_dir ∧
  App.name p = App.project_name (App.entry_name project_dir) ∧
  App.path p = (CONVERSATIONS_DIR ++ "/" ++ App.entry_name project_dir)%string.

(** Listing the log files of the visible directory [project_dir] raises. *)
Definition listing_fails (project_dir : App.dir_entry) : Prop :=
  App.entry_is_dir project_dir = true ∧
  String.prefix "." (App.entry_name project_dir) = false ∧
  App.entry_logs project_dir = Raise.


End Notions.

(** ** Sample inputs *)

Module Samples.
Import Py Parser.

(** A [datetime] stub that answers on the inputs used below: two ISO texts
    and the first two epoch milliseconds (as printed in UTC). *)
Definition stub_datetime : datetime_lib := {|
  fromisoformat_ms s :=
    if String.eqb s "2024-01-01T00:00:00+00:00" then Some 1704067200000%Z
    else if String.eqb s "2024-01-01T00:00:01+00:00" then Some 1704067201000%Z
    else None;
  fromtimestamp_iso ms :=
    if (ms =? 0)%Z then Some "1970-01-01T00:00:00"
    else if (ms =? 1)%Z then Some "1970-01-01T00:00:00.001000"
    else None;
  fromisoformat_empty := eq_refl |}.

(** Records [{"uuid": id}] and [{"uuid": id, "timestamp": ts}]. *)
Definition bare_record (id : string) : value := VDict [("uuid", VStr id)].
Definition stamped_record (id : string) (ts : value) : value :=
  VDict [("uuid", VStr id); ("timestamp", ts)].

Definition file_a : file := Lines [Json (bare_record "a")].
Definition file_b : file := Lines [Json (bare_record "b")].
Definition file_early : file :=
  Lines [Json (stamped_record "a" (VStr "2024-01-01T00:00:00Z"))].
Definition file_late : file :=
  Lines [Json (stamped_record "b" (VStr "2024-01-01T00:00:01Z"))].
Definition file_twice : file :=
  Lines [Json (bare_record "a"); Blank; Json (bare_record "a")].

(** Session s2 starts at 05:00 UTC, written with an offset; s1 at 06:00. *)
Definition two_offsets : list Message :=
  [ mkMessage "m1" (VStr "2024-01-01T10:00:00+05:00") 1704085200000 "user"
      (VStr "") None (Some "s2") None false None None [] (bare_record "m1");
    mkMessage "m2" (VStr "2024-01-01T06:00:00Z") 1704088800000 "user"
      (VStr "") None (Some "s1") None false None None [] (bare_record "m2") ].



(** A [tool_result] record whose content holds two tool results. *)
Definition tool_result_twice : value :=
  VDict [ ("uuid", VStr "u1"); ("type", VStr "tool_result");
          ("message", VDict [ ("role", VStr "user");
            ("content", VList [
               VDict [("type", VStr "tool_result"); ("tool_use_id", VStr "toolu_1")];
               VDict [("type", VStr "tool_result"); ("tool_use_id", VStr "toolu_2")] ]) ]) ].

(** A record whose timestamp is the JSON literal [true]. *)
Definition true_stamp_record : value := stamped_record "a" (VBool true).

(** A record with an id whose only text block holds [null]. *)
Definition null_text_record : value :=
  VDict [ ("uuid", VStr "a"); ("timestamp", VStr "2024-01-01T00:00:00Z");
          ("message", VDict [ ("role", VStr "assistant");
            ("content", VList [ VDict [("type", VStr "text"); ("text", VNone)] ]) ]) ].

(** An environment with a stand-in for MD5 (the text itself), no links to
    resolve, and times printed in decimal. *)
Definition plain_env : Cache.env := {|
  Cache.md5_hex s := s;
  Cache.resolve p := p;
  Cache.str_of_mtime t := pretty t;
  Cache.isoformat t := pretty t |}.

Definition hour_cache : Cache.CacheManager := {| Cache.ttl_seconds := 3600 |}.

(** A project with two log files, modified at times 10 and 20; an empty,
    writable cache directory; the clock at 100. *)
Definition two_logs : Cache.world := {|
  Cache.log_mtimes _ := Ok [10; 20]%Z;
  Cache.cache_files := ∅;
  Cache.cache_writable := true;
  Cache.now := 100 |}.

(** The same with a file of another project in the cache directory. *)
Definition two_logs_beside : Cache.world := {|
  Cache.log_mtimes _ := Ok [10; 20]%Z;
  Cache.cache_files :=
    {[ "other_7.cache" := {| Cache.cf_mtime := 50; Cache.cf_payload := None |} ]};
  Cache.cache_writable := true;
  Cache.now := 100 |}.

(** The same world after a change to the log files and [dt] seconds. *)
Definition later (mtimes : list Z) (dt : Z) (w : Cache.world) : Cache.world := {|
  Cache.log_mtimes _ := Ok mtimes;
  Cache.cache_files := Cache.cache_files w;
  Cache.cache_writable := Cache.cache_writable w;
  Cache.now := Cache.now w + dt |}.

Definition message_a : Message :=
  mkMessage "a" (VStr "") 0 "user" (VStr "hello") None (Some "s1") None false
    None None [] (bare_record "a").

(** Two sessions; the first message belongs to the later one. *)
Definition message_in (id session : string) (stamp : string) (ms : Z) : Message :=
  mkMessage id (VStr stamp) ms "user" (VStr "") None (Some session) None false
    None None [] (bare_record id).
Definition two_sessions : list Message :=
  [ message_in "m1" "s2" "2024-01-02T00:00:05Z" 1704153605000;
    message_in "m2" "s1" "2024-01-01T00:00:09Z" 1704067209000;
    message_in "m3" "s1" "2024-01-01T00:00:01Z" 1704067201000 ].

(** A root [a] with children [b] and [c], a message [d] whose parent is
    missing, a message [e] that names itself as parent, and two messages
    [f], [g] that name each other. *)
Definition message_under (id : string) (parent : option string) (ms : Z)
    : Message :=
  mkMessage id (VStr "") ms "user" (VStr "") parent None None false None None
    [] (bare_record id).
(** One message that names itself as parent. *)
Definition self_parent : list Message := [ message_under "e" (Some "e") 0 ].

Definition forest_and_cycles : list Message :=
  [ message_under "a" None 5; message_under "b" (Some "a") 3;
    message_under "c" (Some "a") 1; message_under "d" (Some "zz") 0;
    message_under "e" (Some "e") 0; message_under "f" (Some "g") 2;
    message_under "g" (Some "f") 4 ].

(** A user record: a text block, then two tool results. *)
Definition text_then_results : value :=
  VDict [ ("uuid", VStr "u2"); ("type", VStr "user");
          ("message", VDict [ ("role", VStr "user");
            ("content", VList [
               VDict [("type", VStr "text"); ("text", VStr "see")];
               VDict [("type", VStr "tool_result"); ("tool_use_id", VStr "toolu_1")];
               VDict [("type", VStr "tool_result"); ("tool_use_id", VStr "toolu_2")] ]) ]) ].

(** A [tool_use] record: a tool result, then two tool uses; and the message
    it decodes to. *)
Definition result_then_uses : value :=
  VDict [ ("uuid", VStr "u3"); ("type", VStr "tool_use");
          ("message", VDict [ ("role", VStr "assistant");
            ("content", VList [
               VDict [("type", VStr "tool_result"); ("tool_use_id", VStr "toolu_0")];
               VDict [("type", VStr "tool_use"); ("name", VStr "Read"); ("id", VStr "toolu_1")];
               VDict [("type", VStr "tool_use"); ("name", VStr "Bash"); ("id", VStr "toolu_2")] ]) ]) ].
Definition result_then_uses_message : Message :=
  mkMessage "u3" (VStr "") 0 "tool_use"
    (get_or (get result_then_uses "message") "content" VNone)
    None None None false (Some "Read") (Some "toolu_1") [] result_then_uses.

End Samples.

(** * Properties *)

Local Open Scope list_scope.

(** ** The stable sort *)

Import Py Notions.

Global Instance Z_key_order : KeyOrder Z.ltb.
Proof. split; intros; lia. Qed.

Lemma string_ltb_leb a b : String.ltb a b = false ↔ String.leb b a = true.
Proof.
  unfold String.ltb, String.leb. rewrite (String.compare_antisym a b).
  destruct (String.compare b a); simpl; intuition congruence.
Qed.

Global Instance string_key_order : KeyOrder String.ltb.
Proof.
  split.
  - intros a b. unfold String.ltb. rewrite (String.compare_antisym a b).
    destruct (String.compare b a); simpl; congruence.
  - intros a b c Hab Hbc. apply string_ltb_leb in Hab, Hbc.
    apply string_ltb_leb.
    apply Is_true_true. apply Is_true_true in Hab, Hbc.
    exact (transitivity (R := String.le) Hab Hbc).
  - intros a b Hab Hba. apply string_ltb_leb in Hab, Hba.
    by apply String.leb_antisym.
Qed.

Section sort_facts.
Context {A K : Type} (ltb : K → K → bool) `{!KeyOrder ltb} (key : A → K).

Abbreviation le := (key_le ltb key).
Abbreviation insert := (insert ltb key).
Abbreviation sort := (sort ltb key).

Lemma key_le_refl a : le a a.
Proof.
  unfold key_le. destruct (ltb (key a) (key a)) eqn:E; [|done].
  by rewrite (ltb_asym _ _ E) in E.
Qed.

Lemma key_le_trans a b c : le a b → le b c → le a c.
Proof. unfold key_le. apply ltb_le_trans. Qed.

Lemma insert_perm x l : insert x l ≡ₚ x :: l.
Proof.
  induction l as [|y l IH]; simpl; [done|].
  destruct (ltb (key y) (key x)); [|done].
  rewrite IH. apply perm_swap.
Qed.

Lemma sort_perm l : sort l ≡ₚ l.
Proof.
  induction l as [|x l IH]; simpl; [done|].
  by rewrite insert_perm, IH.
Qed.

Lemma insert_sorted x l :
  StronglySorted le l → StronglySorted le (insert x l).
Proof.
  induction 1 as [|y l Hl IH Hy]; simpl.
  - repeat constructor.
  - destruct (ltb (key y) (key x)) eqn:E.
    + constructor; [done|].
      rewrite insert_perm. constructor; [|done].
      unfold key_le. by apply ltb_asym.
    + constructor; [by constructor|].
      constructor; [done|].
      eapply Forall_impl; [exact Hy|].
      intros z Hz. by apply (key_le_trans x y z).
Qed.

Lemma sort_sorted l : StronglySorted le (sort l).
Proof. induction l; simpl; [constructor|by apply insert_sorted]. Qed.

Context `{!EqDecision K}.

Abbreviation with_key := (with_key key).

Lemma insert_with_key k x l :
  with_key k (insert x l) = with_key k (x :: l).
Proof.
  unfold with_key. induction l as [|y l IH]; simpl; [done|].
  destruct (ltb (key y) (key x)) eqn:E; [|done].
  rewrite filter_cons, IH, !filter_cons.
  destruct (decide (key y = k)) as [Hy|]; [|done].
  destruct (decide (key x = k)) as [Hx|]; [|done].
  rewrite Hy, Hx in E. pose proof (ltb_asym _ _ E). congruence.
Qed.

(** Stability: the elements of any one key keep their order. *)
Lemma sort_stable k l : with_key k (sort l) = with_key k l.
Proof.
  induction l as [|x l IH]; simpl; [done|].
  rewrite insert_with_key. unfold with_key in *.
  by rewrite !filter_cons, IH.
Qed.

(** A sorted list is determined by its elements of each key. *)
Lemma sorted_with_key_inj l1 l2 :
  StronglySorted le l1 → StronglySorted le l2 →
  (∀ k, with_key k l1 = with_key k l2) → l1 = l2.
Proof.
  intros H1. revert l2.
  induction H1 as [|a l1 Hl1 IH Ha]; intros l2 H2 Heq.
  - destruct l2 as [|b l2]; [done|].
    specialize (Heq (key b)). unfold with_key in Heq.
    rewrite filter_nil, filter_cons in Heq. by case_decide.
  - destruct H2 as [|b l2 Hl2 Hb].
    { specialize (Heq (key a)). unfold with_key in Heq.
      rewrite filter_nil, filter_cons in Heq. by case_decide. }
    assert (key b = key a) as Hk.
    { assert (b ∈ a :: l1) as Hb1.
      { eapply (list_elem_of_filter (λ x, key x = key b)).
        fold (with_key (key b) (a :: l1)). rewrite Heq.
        unfold with_key. rewrite filter_cons. case_decide; [|done]. left. }
      assert (a ∈ b :: l2) as Ha2.
      { eapply (list_elem_of_filter (λ x, key x = key a)).
        fold (with_key (key a) (b :: l2)). rewrite <-Heq.
        unfold with_key. rewrite filter_cons. case_decide; [|done]. left. }
      apply ltb_tricho.
      - apply elem_of_cons in Hb1 as [->|Hb1]; [apply key_le_refl|].
        rewrite Forall_forall in Ha. by apply Ha.
      - apply elem_of_cons in Ha2 as [->|Ha2]; [apply key_le_refl|].
        rewrite Forall_forall in Hb. by apply Hb. }
    assert (a = b) as ->.
    { specialize (Heq (key a)). unfold with_key in Heq.
      rewrite !filter_cons in Heq.
      destruct (decide (key a = key a)); [|done].
      destruct (decide (key b = key a)); [|done]. congruence. }
    f_equal. apply IH; [done|]. intros k. specialize (Heq k).
    unfold with_key in *. rewrite !filter_cons in Heq.
    destruct (decide (key b = k)); congruence.
Qed.
End sort_facts.

(** ** The parser *)

Section parser_facts.
Import Parser.
Context (lib : datetime_lib).

Lemma key_le_ascending {A} (key : A → Z) (l : list A) :
  StronglySorted (key_le Z.ltb key) l ↔ ascending key l.
Proof.
  unfold ascending. split; intros H; induction H; constructor; try done;
    (eapply Forall_impl; [eassumption|]); unfold key_le; intros; simpl in *; lia.
Qed.

Lemma collect_cons f files :
  collect lib (f :: files) = file_messages lib f ++ collect lib files.
Proof. by destruct f. Qed.

Lemma collect_perm files files' :
  files ≡ₚ files' → collect lib files ≡ₚ collect lib files'.
Proof. unfold collect. by intros ->. Qed.

Lemma with_key_app {A K} `{!EqDecision K} (key : A → K) k l1 l2 :
  with_key key k (l1 ++ l2) = with_key key k l1 ++ with_key key k l2.
Proof. apply filter_app. Qed.

Lemma with_key_nil_iff (t : Z) f :
  with_key timestamp_ms t (file_messages lib f) = [] ↔ ¬ has_timestamp lib t f.
Proof.
  unfold has_timestamp, with_key. rewrite <-Forall_Exists_neg.
  induction (file_messages lib f) as [|m l IH]; simpl.
  - split; [constructor|done].
  - rewrite filter_cons, Forall_cons. case_decide; [|tauto].
    split; [done|]. intros [? _]. done.
Qed.

Lemma no_tie_perm files files' :
  files ≡ₚ files' → no_tie_across_files lib files →
  no_tie_across_files lib files'.
Proof. intros Hp H t. specialize (H t). by rewrite <-Hp. Qed.

Lemma no_tie_tail f files :
  no_tie_across_files lib (f :: files) → no_tie_across_files lib files.
Proof.
  intros H t. specialize (H t). rewrite filter_cons in H.
  case_decide; simpl in H; lia.
Qed.

(** Without ties across files, the messages of one timestamp come from one
    file, so their order does not depend on the order of the files. *)
Lemma collect_with_key_perm files files' :
  files ≡ₚ files' → no_tie_across_files lib files →
  ∀ t, with_key timestamp_ms t (collect lib files)
       = with_key timestamp_ms t (collect lib files').
Proof.
  induction 1 as [|f l l' Hp IH|f g l|l l' l'' Hp IH Hp' IH']; intros Htie t.
  - done.
  - rewrite !collect_cons, !with_key_app. f_equal.
    apply IH. by eapply no_tie_tail.
  - rewrite !collect_cons, !with_key_app, !(assoc_L (++)). f_equal.
    specialize (Htie t). rewrite !filter_cons in Htie.
    destruct (decide (has_timestamp lib t g)) as [Hg|Hg];
      destruct (decide (has_timestamp lib t f)) as [Hf|Hf];
      simpl in Htie; try lia;
      repeat match goal with
      | H : ¬ has_timestamp _ _ _ |- _ =>
          apply with_key_nil_iff in H; rewrite H
      end; by rewrite ?app_nil_r.
  - rewrite IH by done. apply IH'. by eapply no_tie_perm.
Qed.

Lemma parse_all_ascending files :
  ascending timestamp_ms (parse_all lib files).
Proof. apply key_le_ascending, sort_sorted, _. Qed.

Lemma parse_all_stamps_sorted files :
  StronglySorted Z.le (timestamp_ms <$> parse_all lib files).
Proof.
  eapply (StronglySorted_fmap _ (λ a b, (timestamp_ms a ≤ timestamp_ms b)%Z));
    [|apply parse_all_ascending].
  by intros ??.
Qed.

End parser_facts.

(** C1. The list returned by [parse_all] is ascending in [timestamp_ms], it
    holds exactly the messages collected file by file and line by line, and
    the messages of any one [timestamp_ms] stand in the order in which they
    were collected. *)
Theorem parse_all_sorted_stable (lib : Parser.datetime_lib)
    (jsonl_files : list Parser.file) :
  ascending Parser.timestamp_ms (Parser.parse_all lib jsonl_files) ∧
  Parser.parse_all lib jsonl_files ≡ₚ Parser.collect lib jsonl_files ∧
  ∀ t, with_key Parser.timestamp_ms t (Parser.parse_all lib jsonl_files)
       = with_key Parser.timestamp_ms t (Parser.collect lib jsonl_files).
Proof.
  split; [apply parse_all_ascending|]. unfold Parser.parse_all. split.
  - apply sort_perm.
  - intros t. apply sort_stable, _.
Qed.

(** C5, as stated, fails: two files that each hold one record without a
    timestamp give the two messages in the order the files are enumerated. *)
Lemma parse_all_depends_on_enumeration :
  Parser.parse_all Samples.stub_datetime [Samples.file_a; Samples.file_b]
  ≠ Parser.parse_all Samples.stub_datetime [Samples.file_b; Samples.file_a].
Proof. vm_compute. intros H. discriminate H. Qed.

(** C5, amended.  Two enumerations of the same files give the same messages
    with the same sequence of [timestamp_ms]; they give the same list when no
    [timestamp_ms] occurs in two files. *)
Theorem parse_all_enumeration_order (lib : Parser.datetime_lib)
    (files files' : list Parser.file) :
  files ≡ₚ files' →
  Parser.parse_all lib files ≡ₚ Parser.parse_all lib files' ∧
  Parser.timestamp_ms <$> Parser.parse_all lib files
    = Parser.timestamp_ms <$> Parser.parse_all lib files' ∧
  (no_tie_across_files lib files →
   Parser.parse_all lib files = Parser.parse_all lib files').
Proof.
  intros Hp.
  assert (Parser.parse_all lib files ≡ₚ Parser.parse_all lib files') as Hpp.
  { unfold Parser.parse_all. rewrite !sort_perm. by apply collect_perm. }
  split; [done|]. split.
  - apply (StronglySorted_unique Z.le);
      [apply parse_all_stamps_sorted..|by rewrite Hpp].
  - intros Htie. unfold Parser.parse_all.
    apply (sorted_with_key_inj Z.ltb Parser.timestamp_ms);
      [apply sort_sorted, _..|].
    intros t. rewrite !sort_stable by apply _.
    by apply collect_with_key_perm.
Qed.

Lemma parse_all_enumeration_order_witness :
  Parser.parse_all Samples.stub_datetime [Samples.file_late; Samples.file_early]
  = Parser.parse_all Samples.stub_datetime [Samples.file_early; Samples.file_late].
Proof.
  apply (parse_all_enumeration_order Samples.stub_datetime
           [Samples.file_late; Samples.file_early]
           [Samples.file_early; Samples.file_late]).
  - apply perm_swap.
  - intros t. rewrite !filter_cons, filter_nil.
    destruct (decide (has_timestamp Samples.stub_datetime t Samples.file_late))
      as [H1|]; [|case_decide; simpl; lia].
    destruct (decide (has_timestamp Samples.stub_datetime t Samples.file_early))
      as [H2|]; [|simpl; lia].
    exfalso. unfold has_timestamp in H1, H2. vm_compute in H1, H2.
    apply Exists_cons in H1 as [H1|H1]; [|by apply Exists_nil in H1].
    apply Exists_cons in H2 as [H2|H2]; [|by apply Exists_nil in H2].
    congruence.
Defined.

(** C9, as stated, fails: the parser keeps both of two records that carry
    the same id. *)
Lemma parse_all_keeps_duplicate_ids :
  ¬ NoDup (Parser.uuid <$>
             Parser.parse_all Samples.stub_datetime [Samples.file_twice]).
Proof.
  vm_compute. intros H. apply NoDup_cons in H as [H _]. apply H. left.
Qed.

(** C9, amended.  [parse_all] neither drops, merges nor invents ids: the ids
    it returns are those of the records that decode to a message, with their
    multiplicities, so they are pairwise distinct exactly when those are. *)
Theorem parse_all_ids (lib : Parser.datetime_lib) (files : list Parser.file) :
  Parser.uuid <$> Parser.parse_all lib files
    ≡ₚ Parser.uuid <$> Parser.collect lib files ∧
  (NoDup (Parser.uuid <$> Parser.parse_all lib files)
   ↔ NoDup (Parser.uuid <$> Parser.collect lib files)).
Proof.
  assert (Parser.uuid <$> Parser.parse_all lib files
            ≡ₚ Parser.uuid <$> Parser.collect lib files) as Hp.
  { unfold Parser.parse_all. by rewrite sort_perm. }
  split; [done|]. by rewrite Hp.
Qed.

(** ** The decoder *)

Section decoder_facts.
Import Parser.
Context (lib : datetime_lib).

(** A [tool_use] block ends the scan: nothing after it is read. *)
Lemma scan_tool_use_stops item rest name id :
  is_dict item && type_is item "tool_use" = true →
  scan_tool_blocks (item :: rest) name id
  = (get_str item "name", get_str item "id").
Proof. intros H. simpl. by rewrite H. Qed.

(** A [tool_result] block does not: the scan goes on with its id. *)
Lemma scan_tool_result_goes_on item rest name id :
  is_dict item && type_is item "tool_use" = false →
  is_dict item && type_is item "tool_result" = true →
  scan_tool_blocks (item :: rest) name id
  = scan_tool_blocks rest name (get_str item "tool_use_id").
Proof. intros H1 H2. simpl. by rewrite H1, H2. Qed.

Lemma lookup_set_entry k v d k' :
  lookup_key k' (set_entry k v d)
  = if String.eqb k k' then Some v else lookup_key k' d.
Proof.
  induction d as [|[k0 v0] d IH]; simpl.
  - rewrite String.eqb_sym. by destruct (String.eqb k' k).
  - destruct (String.eqb k0 k) eqn:E0; simpl.
    + apply String.eqb_eq in E0 as ->. by destruct (String.eqb k k').
    + rewrite IH. destruct (String.eqb k k') eqn:E; [|done].
      apply String.eqb_eq in E as <-. by rewrite E0.
Qed.

Lemma get_or_with_timestamp v data k dflt :
  k ≠ "timestamp" →
  get_or (with_timestamp v data) k dflt = get_or data k dflt.
Proof.
  intros Hk. destruct data; try done. simpl.
  rewrite lookup_set_entry.
  destruct (String.eqb_spec "timestamp" k); [congruence|done].
Qed.

Lemma get_with_timestamp v data k :
  k ≠ "timestamp" → get (with_timestamp v data) k = get data k.
Proof. apply get_or_with_timestamp. Qed.

Lemma has_key_with_timestamp v data k :
  k ≠ "timestamp" → has_key (with_timestamp v data) k = has_key data k.
Proof.
  intros Hk. destruct data; try done. simpl.
  rewrite lookup_set_entry.
  destruct (String.eqb_spec "timestamp" k); [congruence|done].
Qed.

Lemma is_dict_with_timestamp v data :
  is_dict (with_timestamp v data) = is_dict data.
Proof. by destruct data. Qed.

(** Whether content extraction raises does not depend on the timestamp. *)
Lemma extract_content_with_timestamp v data ty :
  _extract_content (with_timestamp v data) ty = Raise
  ↔ _extract_content data ty = Raise.
Proof.
  unfold _extract_content.
  rewrite !has_key_with_timestamp, !get_with_timestamp,
    !get_or_with_timestamp by discriminate.
  destruct (has_key data "message" && is_dict (get data "message")).
  - destruct (eq_str (get (get data "message") "role") "assistant"); [done|].
    destruct (eq_str (get (get data "message") "role") "user"); [done|].
    destruct (has_key data "content"); [done|].
    by destruct (String.eqb ty "file-history-snapshot").
  - destruct (has_key data "content"); [done|].
    by destruct (String.eqb ty "file-history-snapshot").
Qed.

(** A record with an id decodes exactly when its content can be extracted. *)
Lemma decodes_iff data :
  has_id data →
  decodes lib data ↔ _extract_content data (record_type data) ≠ Raise.
Proof.
  intros [Hd (id & Hid & Hne)]. unfold decodes, _parse_message.
  rewrite Hd, Hid. simpl.
  destruct (String.eqb_spec id ""); [done|].
  destruct (extract_timestamp lib data) as [s ms].
  fold (record_type data).
  destruct (_extract_content data (record_type data)) as [c|]; simpl.
  - destruct (extract_tool_info data (record_type data)).
    split; [done|]. intros _. eexists. done.
  - split; [|done]. by intros [m Hm].
Qed.

Lemma has_id_with_timestamp v data :
  has_id data → has_id (with_timestamp v data).
Proof.
  intros [Hd (id & Hid & Hne)]. split; [by rewrite is_dict_with_timestamp|].
  exists id. split; [|done]. unfold get_str.
  by rewrite get_with_timestamp.
Qed.

Lemma parse_message_timestamp data m :
  _parse_message lib data = Ok (Some m) →
  timestamp_ms m = (extract_timestamp lib data).2.
Proof.
  unfold _parse_message. destruct (negb (is_dict data)); [done|].
  destruct (get_str data "uuid") as [id|]; [|done].
  destruct (String.eqb id ""); [done|].
  destruct (extract_timestamp lib data) as [s ms].
  destruct (_extract_content data _); simpl; [|done].
  destruct (extract_tool_info data _). by intros [= <-].
Qed.

Lemma extract_timestamp_fallback data :
  timestamp_falls_back lib data → (extract_timestamp lib data).2 = 0%Z.
Proof.
  unfold timestamp_falls_back, extract_timestamp, conversion_fails.
  destruct data as [ |b|n|f|s|l|d]; simpl;
    try (intros _; by rewrite fromisoformat_empty).
  destruct (lookup_key "timestamp" d) as [[ |b|n|f|s|l|d']|]; simpl;
    try done; try (by intros ->).
  - destruct f; simpl; try done. by intros ->.
  - intros _. by rewrite fromisoformat_empty.
Qed.

End decoder_facts.

(** C6.  The code at a [tool_result] record with two tool results: the id
    kept is that of the second block, the scan did not stop at the first.
    (For [tool_use] the first block does end the scan,
    [scan_tool_use_stops].) *)
Theorem tool_result_scan_keeps_last (lib : Parser.datetime_lib) :
  ∃ m, Parser._parse_message lib Samples.tool_result_twice = Ok (Some m) ∧
       Parser.tool_name m = None ∧
       Parser.tool_use_id m = Some "toolu_2".
Proof.
  unfold Parser._parse_message, Samples.tool_result_twice. simpl.
  destruct (Parser.extract_timestamp lib _) as [s ms].
  eexists. split; [reflexivity|]. simpl. by split.
Qed.

(** C7, as stated, fails at two records that carry an id: with the
    timestamp [true] the message gets [timestamp_ms = 1], not 0; with a text
    block holding [null] the decoder raises and no message is returned. *)
Lemma timestamp_robust_fails :
  (has_id Samples.true_stamp_record ∧
   unusable_timestamp Samples.stub_datetime Samples.true_stamp_record ∧
   ∃ m, Parser._parse_message Samples.stub_datetime Samples.true_stamp_record
          = Ok (Some m) ∧ Parser.timestamp_ms m = 1%Z) ∧
  (has_id Samples.null_text_record ∧
   Parser._parse_message Samples.stub_datetime Samples.null_text_record = Raise) ∧
  ¬ timestamp_robust Samples.stub_datetime.
Proof.
  assert (has_id Samples.true_stamp_record) as Hid.
  { split; [done|]. by exists "a". }
  split; [|split].
  - split; [done|]. split; [exact I|]. eexists. split; reflexivity.
  - split; [|reflexivity]. split; [done|]. by exists "a".
  - intros H. destruct (H _ Hid) as (m & Hm & H0).
    vm_compute in Hm. injection Hm as <-.
    specialize (H0 I). discriminate H0.
Qed.

(** C7, amended.  For a record that carries an id, the timestamp field
    never decides whether a message is returned: the record decodes with any
    other timestamp value exactly when it decodes as it is, which is exactly
    when content extraction does not raise.  The message has
    [timestamp_ms = 0] when the field is missing, is a text that does not
    parse, is a number (a boolean counts as 0 or 1) that does not convert, or
    is null, a list or an object. *)
Theorem timestamp_degrades_gracefully (lib : Parser.datetime_lib)
    (data : value) :
  has_id data →
  (∀ v, decodes lib (with_timestamp v data) ↔ decodes lib data) ∧
  (decodes lib data
   ↔ Parser._extract_content data (record_type data) ≠ Raise) ∧
  (∀ m, Parser._parse_message lib data = Ok (Some m) →
        timestamp_falls_back lib data → Parser.timestamp_ms m = 0%Z).
Proof.
  intros Hid. split; [|split].
  - intros v. rewrite !decodes_iff by auto using has_id_with_timestamp.
    unfold record_type, get_str. rewrite get_with_timestamp by discriminate.
    by rewrite extract_content_with_timestamp.
  - by apply decodes_iff.
  - intros m Hm Hfb. rewrite (parse_message_timestamp lib data m Hm).
    by apply extract_timestamp_fallback.
Qed.

Lemma timestamp_degrades_gracefully_witness :
  (∀ v, decodes Samples.stub_datetime
          (with_timestamp v (Samples.bare_record "a"))
        ↔ decodes Samples.stub_datetime (Samples.bare_record "a")) ∧
  (decodes Samples.stub_datetime (Samples.bare_record "a")
   ↔ Parser._extract_content (Samples.bare_record "a")
       (record_type (Samples.bare_record "a")) ≠ Raise) ∧
  (∀ m, Parser._parse_message Samples.stub_datetime (Samples.bare_record "a")
          = Ok (Some m) →
        timestamp_falls_back Samples.stub_datetime (Samples.bare_record "a") →
        Parser.timestamp_ms m = 0%Z).
Proof.
  apply (timestamp_degrades_gracefully Samples.stub_datetime
           (Samples.bare_record "a")).
  split; [reflexivity|]. exists "a". split; [reflexivity|discriminate].
Defined.

(** ** The cache *)

Section cache_facts.
Import Cache.
Context (e : env) (self : CacheManager).

Lemma Message_of_kwargs_to_dict o :
  Message_of_kwargs (to_dict o) = Ok (without_children o).
Proof.
  destruct o as [[id t ms ty c parent session agent side name use md raw] cs].
  by destruct parent, session, agent, name, use.
Qed.

Lemma load_messages_to_dict msgs :
  load_messages (VList (to_dict <$> msgs)) = Ok (without_children <$> msgs).
Proof.
  simpl. induction msgs as [|o msgs IH]; [done|].
  csimpl. rewrite Message_of_kwargs_to_dict. simpl. by rewrite IH.
Qed.

(** A successful [set] followed by a [get] that computes the same key, at
    most [ttl_seconds] later: a hit with the stored messages. *)
Lemma get_after_set w path msgs w1 w2 :
  set e w path msgs = (true, w1) →
  cache_files w2 = cache_files w1 →
  get_cache_key e w2 path = get_cache_key e w path →
  (now w2 - now w1 ≤ ttl_seconds self)%Z →
  get e self w2 path = Some (without_children <$> msgs).
Proof.
  unfold set, get, is_cache_valid. intros Hset Hfiles Hkey Hage.
  destruct (cache_writable w); [|done]. injection Hset as <-.
  rewrite Hkey, Hfiles. cbn [cache_files now] in *. rewrite lookup_insert_eq.
  cbn [cf_mtime cf_payload mbind option_bind].
  destruct (Z.gtb_spec (now w2 - now w) (ttl_seconds self)); [lia|].
  cbn [negb is_dict].
  change (get_or _ "messages" _) with (VList (to_dict <$> msgs)).
  by rewrite load_messages_to_dict.
Qed.

(** A [get] under a key for which the directory holds no file: a miss. *)
Lemma get_without_file w path :
  cache_files w !! get_cache_path (get_cache_key e w path) = None →
  get e self w path = None.
Proof. unfold get, is_cache_valid. by intros ->. Qed.

Lemma string_cons_app c (s t : string) :
  (String c s ++ t)%string = String c (s ++ t)%string.
Proof. done. Qed.

Lemma string_app_ne (s : string) c t : s ≠ (s ++ String c t)%string.
Proof.
  induction s as [|a s IH]; [done|].
  rewrite string_cons_app. by intros [= ?].
Qed.

(** The text that is hashed changes exactly when the latest modification
    time does (or appears, or disappears). *)
Lemma key_str_eq_iff w1 w2 path :
  Inj (=) (=) (str_of_mtime e) →
  key_str e w1 path = key_str e w2 path
  ↔ latest_mtime w1 path = latest_mtime w2 path.
Proof.
  intros Hinj. unfold key_str, latest_mtime.
  destruct (log_mtimes w1 path) as [[|m1 ms1]|];
    destruct (log_mtimes w2 path) as [[|m2 ms2]|];
    try done;
    try (split; [intros H; by apply string_app_ne in H|done]);
    try (split; [intros H; symmetry in H; by apply string_app_ne in H|done]).
  split.
  - intros H. apply (inj _) in H. apply (inj (String.append "_")) in H.
    by apply Hinj in H as ->.
  - by intros [= ->].
Qed.

Lemma string_app_length (s t : string) :
  String.length (s ++ t)%string = (String.length s + String.length t)%nat.
Proof.
  induction s as [|a s IH]; [done|].
  rewrite string_cons_app. simpl. by rewrite IH.
Qed.

Lemma string_app_inj_r (t s1 s2 : string) :
  (s1 ++ t)%string = (s2 ++ t)%string → s1 = s2.
Proof.
  revert s2. induction s1 as [|a s1 IH]; intros [|b s2] H; try done.
  - apply (f_equal String.length) in H.
    rewrite !string_app_length in H. simpl in H. lia.
  - apply (f_equal String.length) in H.
    rewrite !string_app_length in H. simpl in H. lia.
  - rewrite !string_cons_app in H. injection H as -> H. f_equal. by apply IH.
Qed.

(** After a [set], a [get] that computes another key, under which nothing
    was stored before the [set], finds no file. *)
Lemma get_unwritten_key w path msgs w1 w2 :
  set e w path msgs = (true, w1) →
  cache_files w2 = cache_files w1 →
  get_cache_key e w2 path ≠ get_cache_key e w path →
  cache_files w !! get_cache_path (get_cache_key e w2 path) = None →
  get e self w2 path = None.
Proof.
  unfold set. intros Hset Hfiles Hkey Hnone.
  destruct (cache_writable w); [|done]. injection Hset as <-.
  apply get_without_file. rewrite Hfiles. cbn [cache_files].
  rewrite lookup_insert_ne; [done|].
  unfold get_cache_path. intros H. apply string_app_inj_r in H. congruence.
Qed.

Lemma set_keeps_logs w path msgs ok w1 :
  set e w path msgs = (ok, w1) → log_mtimes w1 = log_mtimes w.
Proof.
  unfold set. destruct (cache_writable w); by intros [= <- <-].
Qed.

Lemma key_of_latest w1 w2 path :
  latest_mtime w1 path = latest_mtime w2 path →
  get_cache_key e w1 path = get_cache_key e w2 path.
Proof.
  unfold get_cache_key, key_str, latest_mtime. intros H.
  destruct (log_mtimes w1 path) as [[|m1 ms1]|];
    destruct (log_mtimes w2 path) as [[|m2 ms2]|]; try done.
  by injection H as ->.
Qed.

End cache_facts.

(** C3.  After a successful [set], a [get] for the same project made while
    its log files are unchanged, no later than [ttl_seconds] after the write,
    returns the stored messages: the same fields, in the same order, every
    one without children. *)
Theorem cache_round_trip (e : Cache.env) (self : Cache.CacheManager)
    (w w1 w2 : Cache.world) (project_path : string)
    (msgs : list Cache.MessageObj) :
  Cache.set e w project_path msgs = (true, w1) →
  Cache.log_mtimes w2 project_path = Cache.log_mtimes w1 project_path →
  Cache.cache_files w2 = Cache.cache_files w1 →
  (Cache.now w2 - Cache.now w1 ≤ Cache.ttl_seconds self)%Z →
  Cache.get e self w2 project_path = Some (without_children <$> msgs).
Proof.
  intros Hset Hlogs Hfiles Hage.
  apply (get_after_set e self w project_path msgs w1 w2); try done.
  apply key_of_latest. unfold latest_mtime.
  by rewrite Hlogs, (set_keeps_logs e _ _ _ _ _ Hset).
Qed.

Lemma cache_round_trip_witness :
  Cache.get Samples.plain_env Samples.hour_cache
    (Samples.later [10; 20]%Z 5
       (Cache.set Samples.plain_env Samples.two_logs "proj"
          [Cache.mkObj Samples.message_a []]).2)
    "proj"
  = Some [Cache.mkObj Samples.message_a []].
Proof.
  apply (cache_round_trip Samples.plain_env Samples.hour_cache
           Samples.two_logs
           (Cache.set Samples.plain_env Samples.two_logs "proj"
              [Cache.mkObj Samples.message_a []]).2
           _ "proj" [Cache.mkObj Samples.message_a []]).
  - reflexivity.
  - reflexivity.
  - reflexivity.
  - vm_compute. discriminate.
Defined.

(** C4, as stated, fails: a project is cached while it has log files
    modified at times 10 and 20; the older file is then deleted.  The latest
    modification time is still 20, the key is the same, and the next [get]
    is a hit. *)
Lemma cache_hit_after_file_deleted :
  Cache.get Samples.plain_env Samples.hour_cache
    (Samples.later [20]%Z 1
       (Cache.set Samples.plain_env Samples.two_logs "proj"
          [Cache.mkObj Samples.message_a []]).2)
    "proj"
  = Some [Cache.mkObj Samples.message_a []].
Proof. vm_compute. reflexivity. Qed.

(** C4, amended.  The text hashed into the key changes exactly when the
    latest modification time of the log files changes (or the project gets
    its first log file, or loses its last).  When the key changes and no
    entry was stored under the new key, the next [get] misses, whatever the
    TTL and whatever else the directory holds; when the latest modification
    time is unchanged, the key is unchanged and the next [get] within the
    TTL still hits. *)
Theorem cache_invalidation (e : Cache.env) (self : Cache.CacheManager)
    (w w1 w2 : Cache.world) (project_path : string)
    (msgs : list Cache.MessageObj) :
  Inj (=) (=) (Cache.str_of_mtime e) →
  Cache.set e w project_path msgs = (true, w1) →
  Cache.cache_files w2 = Cache.cache_files w1 →
  (Cache.key_str e w2 project_path = Cache.key_str e w1 project_path
   ↔ latest_mtime w2 project_path = latest_mtime w1 project_path) ∧
  (Cache.get_cache_key e w2 project_path ≠ Cache.get_cache_key e w1 project_path →
   Cache.cache_files w
     !! Cache.get_cache_path (Cache.get_cache_key e w2 project_path) = None →
   Cache.get e self w2 project_path = None) ∧
  (latest_mtime w2 project_path = latest_mtime w1 project_path →
   (Cache.now w2 - Cache.now w1 ≤ Cache.ttl_seconds self)%Z →
   Cache.get e self w2 project_path = Some (without_children <$> msgs)).
Proof.
  intros Hinj Hset Hfiles.
  pose proof (set_keeps_logs e _ _ _ _ _ Hset) as Hlogs.
  assert (Cache.get_cache_key e w1 project_path
          = Cache.get_cache_key e w project_path) as Hk1.
  { apply key_of_latest. unfold latest_mtime. by rewrite Hlogs. }
  split; [by apply key_str_eq_iff|]. split.
  - intros Hkey Hnone. rewrite Hk1 in Hkey.
    by apply (get_unwritten_key e self w project_path msgs w1 w2).
  - intros Hlatest Hage.
    apply (get_after_set e self w project_path msgs w1 w2); try done.
    rewrite <-Hk1. by apply key_of_latest.
Qed.

Lemma cache_invalidation_witness :
  Cache.get Samples.plain_env Samples.hour_cache
    (Samples.later [10; 20; 30]%Z 1
       (Cache.set Samples.plain_env Samples.two_logs_beside "proj"
          [Cache.mkObj Samples.message_a []]).2)
    "proj"
  = None.
Proof.
  assert (Inj (=) (=) (Cache.str_of_mtime Samples.plain_env)) as Hinj.
  { intros x y H. by apply (inj pretty). }
  destruct (cache_invalidation Samples.plain_env Samples.hour_cache
              Samples.two_logs_beside
              (Cache.set Samples.plain_env Samples.two_logs_beside "proj"
                 [Cache.mkObj Samples.message_a []]).2
              (Samples.later [10; 20; 30]%Z 1
                 (Cache.set Samples.plain_env Samples.two_logs_beside "proj"
                    [Cache.mkObj Samples.message_a []]).2)
              "proj" [Cache.mkObj Samples.message_a []]
              Hinj eq_refl eq_refl) as (_ & Hmiss & _).
  apply Hmiss.
  - vm_compute. discriminate.
  - vm_compute. reflexivity.
Defined.

(** ** The session grouper *)

Section session_facts.
Import Parser Tree.

Lemma dict_append_keys {A} k (m : A) sessions :
  (dict_append k m sessions).*1
  = if decide (k ∈ sessions.*1) then sessions.*1 else sessions.*1 ++ [k].
Proof.
  induction sessions as [|[k' l] rest IH]; csimpl; [done|].
  destruct (String.eqb_spec k' k) as [->|Hne]; csimpl.
  - by rewrite decide_True by left.
  - rewrite IH. destruct (decide (k ∈ rest.*1)) as [H|H].
    + by rewrite decide_True by by right.
    + rewrite decide_False; [done|]. by intros [->|?]%elem_of_cons.
Qed.

Lemma extend_entry_other {A} k (m : A) (sessions : list (string * list A)) :
  k ∉ sessions.*1 →
  (λ kv, if decide (kv.1 = k) then (kv.1, kv.2 ++ [m]) else kv) <$> sessions
  = sessions.
Proof.
  induction sessions as [|[k' l] rest IH]; csimpl; intros Hk; [done|].
  apply not_elem_of_cons in Hk as [Hk' Hk].
  rewrite (decide_False (P := k' = k)) by done. f_equal. by apply IH.
Qed.

(** With distinct keys, [dict_append] extends the entry of [k], or adds one
    at the end. *)
Lemma dict_append_NoDup {A} k (m : A) sessions :
  NoDup sessions.*1 →
  dict_append k m sessions
  = if decide (k ∈ sessions.*1)
    then (λ kv, if decide (kv.1 = k) then (kv.1, kv.2 ++ [m]) else kv) <$> sessions
    else sessions ++ [(k, [m])].
Proof.
  induction sessions as [|[k' l] rest IH]; csimpl; intros Hnd; [done|].
  apply NoDup_cons in Hnd as [Hk' Hnd].
  destruct (String.eqb_spec k' k) as [->|Hne]; csimpl.
  - rewrite (decide_True (P := k ∈ k :: rest.*1)) by left.
    rewrite (decide_True (P := k = k)) by done.
    by rewrite extend_entry_other.
  - rewrite IH by done. rewrite (decide_False (P := k' = k)) by done.
    destruct (decide (k ∈ rest.*1)) as [H|H].
    + by rewrite decide_True by by right.
    + rewrite decide_False; [done|]. by intros [->|?]%elem_of_cons.
Qed.

Lemma filter_none {A} (P : A → Prop) `{!∀ x, Decision (P x)} (l : list A) :
  (∀ x, x ∈ l → ¬ P x) → filter P l = [].
Proof.
  induction l as [|x l IH]; intros Hl; [done|].
  rewrite filter_cons, decide_False by (apply Hl; left).
  apply IH. intros y Hy. apply Hl. by right.
Qed.

Lemma grouped_step done m sessions :
  grouped done sessions →
  grouped (done ++ [m]) (dict_append (session_key m) m sessions).
Proof.
  intros (Hnd & Hkeys & Hall). split; [|split].
  - rewrite dict_append_keys. case_decide as Hin; [done|].
    apply NoDup_app. split; [done|]. split; [|apply NoDup_singleton].
    by intros k Hk ->%list_elem_of_singleton.
  - intros k. rewrite dict_append_keys, fmap_app, elem_of_app.
    rewrite <-Hkeys. simpl. rewrite list_elem_of_singleton.
    case_decide as Hin; [|rewrite elem_of_app, list_elem_of_singleton; tauto].
    split; [tauto|]. by intros [?| ->].
  - rewrite dict_append_NoDup by done. case_decide as Hin.
    + rewrite Forall_fmap. eapply Forall_impl; [exact Hall|].
      intros [k l] Hl. simpl in *. rewrite filter_app, filter_cons, filter_nil.
      case_decide as Hk; simpl.
      * subst k. rewrite decide_True by done. by rewrite Hl.
      * rewrite decide_False by done. by rewrite app_nil_r.
    + apply Forall_app. split.
      * apply Forall_forall. intros [k l] Hkv.
        rewrite Forall_forall in Hall. specialize (Hall _ Hkv). simpl in *.
        rewrite filter_app, filter_cons, filter_nil, decide_False, app_nil_r;
          [done|].
        intros Heq. apply Hin. rewrite Heq.
        apply list_elem_of_fmap. by exists (k, l).
      * constructor; [|done]. simpl.
        rewrite filter_app, filter_cons, filter_nil, decide_True by done.
        rewrite filter_none; [done|].
        intros x Hx Heq. apply Hin, Hkeys. rewrite <-Heq.
        by apply list_elem_of_fmap_2.
Qed.

Lemma grouped_foldl messages :
  grouped messages
    (foldl (λ sessions message,
              dict_append (session_key message) message sessions) [] messages).
Proof.
  induction messages as [|m messages IH] using rev_ind.
  - split; [constructor|]. split; [done|constructor].
  - rewrite foldl_app. simpl. by apply grouped_step.
Qed.

(** [group_by_session] lists, for each of the distinct session keys, the
    messages of that session in ascending order. *)
Lemma group_by_session_groups messages :
  ∃ keys, NoDup keys ∧
    (∀ k, k ∈ keys ↔ k ∈ session_key <$> messages) ∧
    group_by_session messages = (λ k, (k, session_group messages k)) <$> keys.
Proof.
  destruct (grouped_foldl messages) as (Hnd & Hkeys & Hall).
  unfold group_by_session.
  set (sessions := foldl _ _ _) in *.
  exists sessions.*1. split; [done|]. split; [done|].
  rewrite <-list_fmap_compose. apply Forall_fmap_ext.
  eapply Forall_impl; [exact Hall|].
  intros [k l] Hl. simpl in *. unfold session_group. by rewrite Hl.
Qed.

Lemma sorted_by_text {A} (key : A → string) (l : list A) :
  StronglySorted (key_le String.ltb key) l →
  StronglySorted (λ a b, String.le (key a) (key b)) l.
Proof.
  induction 1 as [|a l Hl IH Ha]; constructor; [done|].
  eapply Forall_impl; [exact Ha|]. intros b Hb.
  unfold String.le. apply Is_true_true. by apply string_ltb_leb.
Qed.



Lemma session_group_nonempty messages k :
  k ∈ session_key <$> messages → session_group messages k ≠ [].
Proof.
  intros (m & -> & Hm)%list_elem_of_fmap Hnil.
  assert (m ∈ session_group messages (session_key m)) as Hin.
  { unfold session_group. rewrite sort_perm. by apply list_elem_of_filter. }
  rewrite Hnil in Hin. by apply elem_of_nil in Hin.
Qed.









End session_facts.




(** The order of the summaries is that of the timestamp texts, which need
    not be the order of [timestamp_ms]: here the session that starts first,
    in milliseconds, is written with a UTC offset and comes second. *)
Example session_order_is_textual :
  (λ info, (Tree.info_session_id info, Tree.first_timestamp info))
    <$> default [] (match Tree.get_session_info Samples.two_offsets with
                    | Ok infos => Some infos | Raise => None end)
  = [("s1", VStr "2024-01-01T06:00:00Z");
     ("s2", VStr "2024-01-01T10:00:00+05:00")].
Proof. vm_compute. reflexivity. Qed.

(** On the sample (message m1 of session s2, then m2 and m3 of session s1):
    the summary of s1 comes first, with the span between m3 and m2. *)
Example session_summaries_sample :
  (λ info, (Tree.info_session_id info, Tree.message_count info,
            Tree.duration_ms info))
    <$> default [] (match Tree.get_session_info Samples.two_sessions with
                    | Ok infos => Some infos | Raise => None end)
  = [("s1", 2%nat, 8000%Z); ("s2", 1%nat, 0%Z)].
Proof. vm_compute. reflexivity. Qed.



(** ** The tree builder *)

Section tree_facts.
Import Parser Tree.
Context (messages : list Message).

Abbreviation n := (length messages).
Abbreviation par := (parent_of messages).
Abbreviation anc := (ancestor messages).

(** *** The map from ids to objects *)

Lemma index_uuids_prefix k u j :
  foldl (index_step messages) ∅ (seq 0 k) !! u = Some j → (j < k)%nat.
Proof.
  revert u j. induction k as [|k IH]; intros u j.
  - simpl. by rewrite lookup_empty.
  - rewrite seq_S, foldl_app. simpl. unfold index_step at 1.
    destruct (messages !! k) as [m|].
    + rewrite lookup_insert. case_decide.
      * intros [= <-]. lia.
      * intros Hj. apply IH in Hj. lia.
    + intros Hj. apply IH in Hj. lia.
Qed.

Lemma index_uuids_lt u j : index_uuids messages !! u = Some j → (j < n)%nat.
Proof. apply index_uuids_prefix. Qed.

Lemma par_lt i j : par i = Some j → (i < n)%nat ∧ (j < n)%nat.
Proof.
  unfold parent_of. destruct (messages !! i) as [m|] eqn:Hm; [|done].
  simpl. unfold parent_index.
  destruct (parent_uuid m) as [p|]; [|done].
  destruct (String.eqb p ""); [done|].
  intros H. split; [by eapply lookup_lt_Some|by eapply index_uuids_lt].
Qed.

(** *** Ancestors, cycles and depth *)

Lemma anc_add a b i : anc (a + b) i = anc a i ≫= anc b.
Proof.
  revert i. induction a as [|a IH]; intros i; [done|].
  simpl. destruct (par i) as [p|]; [|done]. simpl. apply IH.
Qed.

Lemma anc_S_r k i : anc (S k) i = anc k i ≫= par.
Proof.
  replace (S k) with (k + 1)%nat by lia. rewrite anc_add.
  destruct (anc k i) as [x|]; [|done]. simpl. by destruct (par x).
Qed.

(** From a message on a cycle every chain of parents goes on for ever. *)
Lemma cycle_never_ends i c d r :
  anc (S c) i = Some i → anc d i = Some r → is_Some (par r).
Proof.
  intros Hc. revert r. induction d as [d IH] using lt_wf_ind. intros r Hd.
  destruct (decide (d < S c)%nat) as [Hlt|Hge].
  - replace (S c) with (d + S (c - d))%nat in Hc by lia.
    rewrite anc_add, Hd in Hc. simpl in Hc.
    destruct (par r); [done|discriminate].
  - replace d with (S c + (d - S c))%nat in Hd by lia.
    rewrite anc_add, Hc in Hd. simpl in Hd.
    apply (IH (d - S c)%nat); [lia|done].
Qed.

Lemma rooted_not_on_cycle d i : rooted messages d i → ¬ on_cycle messages i.
Proof.
  intros (r & Hr & Hnone & _) [c Hc].
  destruct (cycle_never_ends i c d r Hc Hr) as [p Hp]. congruence.
Qed.

(** The depth of a message below its root is unique. *)
Lemma rooted_unique a b i :
  rooted messages a i → rooted messages b i → a = b.
Proof.
  assert (∀ a b, (a < b)%nat → rooted messages a i → rooted messages b i → False)
    as Hlt.
  { clear a b. intros a b Hab (r & Hr & Hnone & _) (r' & Hr' & _).
    replace b with (a + S (b - a - 1))%nat in Hr' by lia.
    rewrite anc_add, Hr in Hr'. simpl in Hr'. by rewrite Hnone in Hr'. }
  intros Ha Hb. destruct (lt_eq_lt_dec a b) as [[H|H]|H]; [|done|].
  - destruct (Hlt a b H Ha Hb).
  - destruct (Hlt b a H Hb Ha).
Qed.

Lemma rooted_child d i j : rooted messages d j → par i = Some j →
  rooted messages (S d) i.
Proof.
  intros (r & Hr & Hnone & Hlt) Hpar. exists r. simpl. by rewrite Hpar.
Qed.

Lemma rooted_below d k x c :
  rooted messages d c → anc k x = Some c → rooted messages (k + d) x.
Proof.
  intros (r & Hr & Hnone & Hlt) Hx. exists r.
  by rewrite anc_add, Hx.
Qed.

Lemma rooted_in_range d i : rooted messages d i → (i < n)%nat.
Proof.
  intros (r & Hr & _ & Hlt). destruct d as [|d].
  - by injection Hr as ->.
  - simpl in Hr. destruct (par i) as [p|] eqn:Hp; [|done].
    by apply par_lt in Hp as [? _].
Qed.

Lemma lineage_elem d i x :
  x ∈ lineage messages d i → ∃ k, (k ≤ d)%nat ∧ anc k i = Some x.
Proof.
  revert i. induction d as [|d IH]; intros i; simpl.
  - intros ->%list_elem_of_singleton. by exists 0%nat.
  - intros [->|Hx]%elem_of_cons; [exists 0%nat; split; [lia|done]|].
    destruct (par i) as [p|] eqn:Hp; [|by apply elem_of_nil in Hx].
    destruct (IH _ Hx) as (k & Hk & Hanc). exists (S k). split; [lia|].
    simpl. by rewrite Hp.
Qed.

Lemma lineage_rooted d i :
  rooted messages d i →
  NoDup (lineage messages d i) ∧ length (lineage messages d i) = S d ∧
  ∀ x, x ∈ lineage messages d i → (x < n)%nat.
Proof.
  revert i. induction d as [|d IH]; intros i Hroot.
  - simpl. split; [apply NoDup_singleton|]. split; [done|].
    intros x ->%list_elem_of_singleton. by eapply rooted_in_range.
  - pose proof Hroot as (r & Hr & Hnone & Hlt). simpl in Hr. simpl.
    destruct (par i) as [p|] eqn:Hp; [|done]. simpl in Hr.
    destruct (IH p) as (Hnd & Hlen & Hran); [by exists r|].
    split; [|split].
    + apply NoDup_cons. split; [|done]. intros Hin.
      apply lineage_elem in Hin as (k & _ & Hk).
      apply (rooted_not_on_cycle _ _ Hroot). exists k. simpl. by rewrite Hp.
    + simpl. by rewrite Hlen.
    + intros x [->|Hx]%elem_of_cons; [by eapply rooted_in_range|by apply Hran].
Qed.

(** A chain of parents that ends at a root visits distinct objects, so it
    is shorter than the list of messages. *)
Lemma rooted_lt d i : rooted messages d i → (d < n)%nat.
Proof.
  intros Hroot. destruct (lineage_rooted d i Hroot) as (Hnd & Hlen & Hran).
  assert (lineage messages d i ⊆+ seq 0 n) as Hsub.
  { apply NoDup_submseteq; [done|]. intros x Hx. apply elem_of_seq.
    specialize (Hran x Hx). lia. }
  apply submseteq_length in Hsub. rewrite Hlen, length_seq in Hsub. lia.
Qed.

Lemma anc_lt k i x : (i < n)%nat → anc k i = Some x → (x < n)%nat.
Proof.
  revert i. induction k as [|k IH]; intros i Hi; simpl.
  - by intros [= <-].
  - destruct (par i) as [p|] eqn:Hp; [|done]. simpl.
    apply IH. by apply par_lt in Hp as [_ ?].
Qed.

(** Following the parents of a message either reaches a root or can go on
    for any number of steps. *)
Lemma rooted_or_chain k i :
  (i < n)%nat → (∃ d, rooted messages d i) ∨ is_Some (anc k i).
Proof.
  intros Hi. induction k as [|k [Hroot|[x Hx]]].
  - right. by eexists.
  - by left.
  - destruct (par x) as [y|] eqn:Hy.
    + right. exists y. by rewrite anc_S_r, Hx.
    + left. exists k, x. split; [done|]. split; [done|]. by eapply anc_lt.
Qed.

Lemma lineage_acyclic d i :
  (∀ x, ¬ on_cycle messages x) → (i < n)%nat → is_Some (anc d i) →
  NoDup (lineage messages d i) ∧ length (lineage messages d i) = S d ∧
  ∀ x, x ∈ lineage messages d i → (x < n)%nat.
Proof.
  intros Hacyc. revert i. induction d as [|d IH]; intros i Hi Hd.
  - simpl. split; [apply NoDup_singleton|]. split; [done|].
    by intros x ->%list_elem_of_singleton.
  - simpl in Hd |- *. destruct (par i) as [p|] eqn:Hp; [|by destruct Hd].
    simpl in Hd. destruct (IH p) as (Hnd & Hlen & Hran); [|done|].
    { by apply par_lt in Hp as [_ ?]. }
    split; [|split].
    + apply NoDup_cons. split; [|done]. intros Hin.
      apply lineage_elem in Hin as (k & _ & Hk).
      apply (Hacyc i). exists k. simpl. by rewrite Hp.
    + simpl. by rewrite Hlen.
    + intros x [->|Hx]%elem_of_cons; [done|by apply Hran].
Qed.

(** Without cycles every message hangs below a root. *)
Lemma acyclic_rooted i :
  (∀ x, ¬ on_cycle messages x) → (i < n)%nat → ∃ d, rooted messages d i.
Proof.
  intros Hacyc Hi. destruct (rooted_or_chain n i Hi) as [?|Hn]; [done|].
  destruct (lineage_acyclic n i Hacyc Hi Hn) as (Hnd & Hlen & Hran).
  assert (lineage messages n i ⊆+ seq 0 n) as Hsub.
  { apply NoDup_submseteq; [done|]. intros x Hx. apply elem_of_seq.
    specialize (Hran x Hx). lia. }
  apply submseteq_length in Hsub. rewrite Hlen, length_seq in Hsub. lia.
Qed.

(** *** The linking loop *)

Lemma concat_alter_snoc (st : store) p x :
  (p < length st)%nat →
  concat (alter (λ cs, cs ++ [x]) p st) ≡ₚ x :: concat st.
Proof.
  revert p. induction st as [|cs st IH]; intros p Hp; simpl in *; [lia|].
  destruct p as [|p]; csimpl.
  - rewrite <-(assoc_L (++)). simpl. by rewrite <-Permutation_middle.
  - rewrite IH by lia. by rewrite <-Permutation_middle.
Qed.

Lemma par_of_lookup i m :
  messages !! i = Some m → par i = parent_index (index_uuids messages) m.
Proof. unfold parent_of. by intros ->. Qed.

Lemma link_prefix k :
  (k ≤ n)%nat →
  ∀ roots st,
    foldl (link_step messages (index_uuids messages))
      ([], replicate n []) (seq 0 k) = (roots, st) →
    roots = filter (λ i, par i = None) (seq 0 k) ∧
    length st = n ∧
    (∀ j, (j < n)%nat →
          st !! j = Some (filter (λ i, par i = Some j) (seq 0 k))) ∧
    roots ++ concat st ≡ₚ seq 0 k.
Proof.
  induction k as [|k IH]; intros Hk roots st.
  - simpl. intros [= <- <-]. split; [done|].
    split; [apply length_replicate|]. split.
    + intros j Hj. by apply lookup_replicate_2.
    + simpl. clear. induction n; [done|]. simpl. done.
  - rewrite seq_S, foldl_app. simpl.
    destruct (foldl _ _ (seq 0 k)) as [roots0 st0] eqn:Hfold.
    destruct (IH ltac:(lia) _ _ eq_refl) as (Hroots & Hlen & Hst & Hperm).
    destruct (lookup_lt_is_Some_2 messages k ltac:(lia)) as [m Hm].
    unfold link_step. rewrite Hm. cbn [fst snd].
    pose proof (par_of_lookup k m Hm) as Hpar.
    destruct (parent_index (index_uuids messages) m) as [p|].
    + intros [= <- <-].
      destruct (par_lt _ _ Hpar) as [_ Hp].
      split; [|split; [|split]].
      * rewrite filter_app, filter_cons, filter_nil.
        rewrite decide_False by congruence. by rewrite app_nil_r.
      * by rewrite length_alter.
      * intros j Hj. rewrite filter_app, filter_cons, filter_nil.
        destruct (decide (p = j)) as [->|Hne].
        -- rewrite list_lookup_alter_eq, Hst by done.
           by rewrite decide_True by done.
        -- rewrite list_lookup_alter_ne, Hst by done.
           rewrite decide_False by congruence. by rewrite app_nil_r.
      * rewrite concat_alter_snoc by lia.
        rewrite <-Permutation_middle, Hperm. apply Permutation_cons_append.
    + intros [= <- <-]. split; [|split; [|split]].
      * rewrite filter_app, filter_cons, filter_nil.
        rewrite decide_True by done. by rewrite Hroots.
      * done.
      * intros j Hj. rewrite filter_app, filter_cons, filter_nil.
        rewrite decide_False by congruence. rewrite app_nil_r. by apply Hst.
      * rewrite <-(assoc_L (++)), (Permutation_app_comm [k]).
        rewrite (assoc_L (++)). by rewrite Hperm.
Qed.

Lemma elem_of_children_of c j :
  c ∈ children_of messages j ↔ par c = Some j.
Proof.
  unfold children_of. rewrite list_elem_of_filter, elem_of_seq.
  split; [by intros [? _]|]. intros H. split; [done|].
  apply par_lt in H as [? _]. lia.
Qed.

Lemma children_of_out_of_range j : (n ≤ j)%nat → children_of messages j = [].
Proof.
  intros Hj. apply filter_none. intros i _ Hi.
  apply par_lt in Hi as [_ ?]. lia.
Qed.

Lemma link_all_spec roots st :
  link_all messages (index_uuids messages) = (roots, st) →
  roots = filter (λ i, par i = None) (seq 0 n) ∧
  store_ok messages st ∧
  (∀ j, (j < n)%nat → st !! j = Some (children_of messages j)) ∧
  roots ++ concat st ≡ₚ seq 0 n.
Proof.
  intros H. destruct (link_prefix n (le_n _) roots st H)
    as (Hroots & Hlen & Hst & Hperm).
  split; [done|]. split; [|by split]. split; [done|].
  intros j. destruct (decide (j < n)%nat) as [Hj|Hj].
  - by rewrite (list_lookup_total_correct _ _ _ (Hst j Hj)).
  - rewrite children_of_out_of_range by lia.
    rewrite list_lookup_total_alt, lookup_ge_None_2 by lia. done.
Qed.

(** *** Stores with the same children *)

Lemma same_children_lookup st st' j :
  same_children st st' → st !!! j ≡ₚ st' !!! j.
Proof.
  intros H. rewrite !list_lookup_total_alt.
  apply Forall2_lookup with (i := j) in H.
  by destruct H.
Qed.

Lemma same_children_ok st st' :
  same_children st st' → store_ok messages st → store_ok messages st'.
Proof.
  intros H [Hlen Hst]. split.
  - by rewrite <-(Forall2_length _ _ _ H).
  - intros j. by rewrite <-(same_children_lookup st st' j H).
Qed.

Lemma same_children_concat st st' :
  same_children st st' → concat st ≡ₚ concat st'.
Proof. induction 1 as [|cs cs' st st' Hcs _ IH]; simpl; [done|]. by rewrite Hcs, IH. Qed.

Lemma same_children_refl st : same_children st st.
Proof. induction st; by constructor. Qed.

Lemma same_children_trans st1 st2 st3 :
  same_children st1 st2 → same_children st2 st3 → same_children st1 st3.
Proof.
  intros H. revert st3. induction H as [|a b st1 st2 Hab _ IH]; intros st3 H3.
  - done.
  - inversion H3 as [|b' c st2' st3' Hbc H3']; subst.
    constructor; [by rewrite Hab|]. by apply IH.
Qed.

Lemma same_children_sort (key : nat → Z) (st : store) m :
  same_children st (<[m := sort Z.ltb key (st !!! m)]> st).
Proof.
  revert m. induction st as [|cs st IH]; intros m; [constructor|].
  destruct m as [|m]; csimpl.
  - constructor; [by rewrite sort_perm|apply same_children_refl].
  - constructor; [done|]. apply IH.
Qed.

Lemma store_ok_elem st j c :
  store_ok messages st → c ∈ st !!! j ↔ par c = Some j.
Proof. intros [_ H]. by rewrite H, elem_of_children_of. Qed.

Lemma store_ok_NoDup st j : store_ok messages st → NoDup (st !!! j).
Proof.
  intros [_ H]. rewrite H. unfold children_of.
  apply NoDup_filter, NoDup_seq.
Qed.

(** *** Sorting the children *)

Lemma foldl_option_none {A B} (f : option A → B → option A) (l : list B) :
  (∀ b, f None b = None) → foldl f None l = None.
Proof. intros Hf. induction l as [|b l IH]; simpl; [done|]. by rewrite Hf. Qed.

Lemma sort_children_same fuel key msgs st st' :
  _sort_children_recursive fuel key msgs st = Some st' → same_children st st'.
Proof.
  revert msgs st st'. induction fuel as [|fuel IH]; intros msgs st st'; [done|].
  simpl. revert st. induction msgs as [|m msgs IHm]; intros st; simpl.
  - intros [= <-]. apply same_children_refl.
  - destruct (st !!! m) as [|c cs] eqn:Hcs.
    + apply IHm.
    + destruct (_sort_children_recursive fuel key _ _) as [st1|] eqn:Hrec.
      * intros Hrest. apply IHm in Hrest. apply IH in Hrec.
        eapply same_children_trans; [|exact Hrest].
        eapply same_children_trans; [|exact Hrec].
        rewrite <-Hcs. apply same_children_sort.
      * by rewrite foldl_option_none.
Qed.

(** With one unit of fuel per level below the roots, the sort of the
    children ends. *)
Lemma sort_children_ends fuel key d msgs st :
  store_ok messages st → Forall (rooted messages d) msgs →
  (n ≤ d + fuel)%nat →
  is_Some (_sort_children_recursive (S fuel) key msgs st).
Proof.
  revert d msgs st. induction fuel as [|fuel IH]; intros d msgs st Hok Hroot Hn.
  - destruct msgs as [|m msgs]; [by eexists|].
    apply Forall_cons in Hroot as [Hm _]. apply rooted_lt in Hm. lia.
  - change (_sort_children_recursive (S (S fuel)) key msgs st) with
      (foldl (λ acc message,
                st ← acc;
                match st !!! message with
                | [] => Some st
                | _ =>
                    let st' := <[message := sort Z.ltb key (st !!! message)]> st in
                    _sort_children_recursive (S fuel) key (st' !!! message) st'
                end) (Some st) msgs).
    revert st Hok. induction Hroot as [|m msgs Hm Hmsgs IHm]; intros st Hok.
    + by eexists.
    + cbn [foldl mbind option_bind].
      destruct (st !!! m) as [|c cs] eqn:Hcs; [by apply IHm|].
      rewrite <-Hcs.
      set (st1 := <[m := sort Z.ltb key (st !!! m)]> st).
      assert (store_ok messages st1) as Hok1.
      { eapply same_children_ok; [apply same_children_sort|done]. }
      destruct (IH (S d) (st1 !!! m) st1) as [st2 Hst2]; [done| |lia|].
      { apply Forall_forall. intros x Hx.
        apply (store_ok_elem st1 m x Hok1) in Hx. by eapply rooted_child. }
      rewrite Hst2. apply IHm.
      eapply same_children_ok; [by eapply sort_children_same|done].
Qed.

(** *** Walking the tree *)

Section walks.
Context (st : store) (Hok : store_ok messages st).

Lemma children_rooted e c :
  rooted messages e c → Forall (rooted messages (S e)) (st !!! c).
Proof.
  intros Hc. apply Forall_forall. intros x Hx.
  apply (store_ok_elem st c x Hok) in Hx. by eapply rooted_child.
Qed.

Lemma traverse_ends fuel e c :
  rooted messages e c → (n ≤ e + fuel)%nat →
  is_Some (traverse (S fuel) st c e).
Proof.
  revert e c. induction fuel as [|fuel IH]; intros e c Hc Hn.
  - apply rooted_lt in Hc. lia.
  - change (traverse (S (S fuel)) st c e) with
      (below ← mapM (λ child, traverse (S fuel) st child (S e)) (st !!! c);
       Some ((c, e) :: concat below)).
    destruct (mapM_is_Some_2
                (λ child, traverse (S fuel) st child (S e)) (st !!! c))
      as [below ->]; [|by eexists].
    eapply Forall_impl; [by apply children_rooted|].
    intros x Hx. apply IH; [done|lia].
Qed.


Abbreviation lists_subtree := (lists_subtree messages).
Abbreviation lists_subtrees := (lists_subtrees messages).

Lemma lists_subtrees_concat e cs os :
  NoDup cs → Forall (rooted messages e) cs →
  Forall2 (lists_subtree e) cs os →
  lists_subtrees e cs (concat os).
Proof.
  intros Hnd Hroot H. induction H as [|c o cs os [Ho Hin] _ IH].
  - split; [constructor|]. intros x y. split; [by intros ?%elem_of_nil|].
    by intros (c & k & ?%elem_of_nil & _).
  - apply NoDup_cons in Hnd as [Hc Hnd].
    apply Forall_cons in Hroot as [Hrc Hroot].
    destruct (IH Hnd Hroot) as [Hos Hins].
    split.
    + simpl. rewrite fmap_app. apply NoDup_app. split; [done|]. split; [|done].
      intros x (p & -> & Hp)%list_elem_of_fmap (q & Hpq & Hq)%list_elem_of_fmap.
      destruct p as [x y], q as [x' y']. simpl in Hpq. subst x'.
      apply Hin in Hp as (k & Hk & ->).
      apply Hins in Hq as (c' & k' & Hc' & Hk' & ->).
      assert (k = k') as <-.
      { assert (rooted messages (k + e) x) as H1 by by eapply rooted_below.
        assert (rooted messages (k' + e) x) as H2.
        { eapply rooted_below; [|done]. rewrite Forall_forall in Hroot. auto. }
        pose proof (rooted_unique _ _ _ H1 H2). lia. }
      congruence.
    + intros x y. simpl. rewrite elem_of_app, Hin, Hins. split.
      * intros [(k & Hk & ->)|(c' & k & Hc' & Hk & ->)].
        -- exists c, k. split; [left|done].
        -- exists c', k. split; [by right|done].
      * intros (c' & k & [->|Hc']%elem_of_cons & Hk & ->).
        -- left. by exists k.
        -- right. by exists c', k.
Qed.

Lemma lists_each (f : nat → option (list (nat * nat))) e cs os :
  (∀ c o, rooted messages e c → f c = Some o → lists_subtree e c o) →
  Forall (rooted messages e) cs →
  Forall2 (λ c o, f c = Some o) cs os →
  Forall2 (lists_subtree e) cs os.
Proof.
  intros Hf Hall H. induction H as [|c o cs os Ho _ IH]; [constructor|].
  apply Forall_cons in Hall as [Hc Hall]. constructor; auto.
Qed.

Lemma traverse_lists fuel e c out :
  rooted messages e c → traverse fuel st c e = Some out →
  lists_subtree e c out.
Proof.
  revert e c out. induction fuel as [|fuel IH]; intros e c out Hc; [done|].
  simpl. destruct (mapM _ _) as [below|] eqn:Hbelow; [|done].
  simpl. intros [= <-]. apply mapM_Some in Hbelow.
  destruct (lists_subtrees_concat (S e) (st !!! c) below) as [Hnd Hin].
  { by apply store_ok_NoDup. }
  { by apply children_rooted. }
  { eapply lists_each; [|by apply children_rooted|exact Hbelow].
    intros c' o Hc' Ho. by eapply IH. }
  split.
  - csimpl. apply NoDup_cons. split; [|done].
    intros (q & Hq1 & Hq)%list_elem_of_fmap. destruct q as [x y].
    simpl in Hq1. subst x.
    apply Hin in Hq as (c' & k & Hc' & Hk & ->).
    apply (store_ok_elem st c c' Hok) in Hc'.
    apply (rooted_not_on_cycle _ _ Hc). exists k.
    by rewrite anc_S_r, Hk.
  - intros x y. rewrite elem_of_cons, Hin. split.
    + intros [[= -> ->]|(c' & k & Hc' & Hk & ->)].
      * by exists 0%nat.
      * apply (store_ok_elem st c c' Hok) in Hc'. exists (S k).
        split; [|lia]. by rewrite anc_S_r, Hk.
    + intros ([|k] & Hk & ->).
      * left. by injection Hk as ->.
      * right. rewrite anc_S_r in Hk.
        destruct (anc k x) as [c'|] eqn:Hc'; [|done]. simpl in Hk.
        exists c', k. split; [by apply (store_ok_elem st c c' Hok)|].
        split; [done|lia].
Qed.

End walks.

(** *** The builder as a whole *)

Lemma rooted_zero r : rooted messages 0 r ↔ par r = None ∧ (r < n)%nat.
Proof.
  split.
  - by intros (r' & [= <-] & ? & ?).
  - intros [? ?]. by exists r.
Qed.

Lemma root_filter r :
  r ∈ filter (λ i, par i = None) (seq 0 n) ↔ rooted messages 0 r.
Proof.
  rewrite list_elem_of_filter, elem_of_seq, rooted_zero.
  split; intros [? ?]; (split; [done|lia]).
Qed.

(** [build] returns: the walk that sorts the children ends.  Its roots are
    the messages without parent object, its store holds every message under
    its parent, and each message is in exactly one of these lists. *)
Lemma build_spec :
  ∃ b, build messages = Some b ∧
    Tree.messages b = messages ∧
    message_map b = index_uuids messages ∧
    (∀ r, r ∈ root_messages b ↔ rooted messages 0 r) ∧
    NoDup (root_messages b) ∧
    store_ok messages (children b) ∧
    root_messages b ++ concat (children b) ≡ₚ seq 0 n.
Proof.
  unfold build.
  destruct (link_all messages (index_uuids messages)) as [roots st] eqn:Hlink.
  destruct (link_all_spec roots st Hlink) as (Hroots & Hok & _ & Hperm).
  set (roots' := sort Z.ltb (ts messages) roots).
  assert (roots' ≡ₚ roots) as Hp by apply sort_perm.
  assert (∀ r, r ∈ roots' ↔ rooted messages 0 r) as Hr.
  { intros r. by rewrite Hp, Hroots, root_filter. }
  destruct (sort_children_ends n (ts messages) 0 roots' st) as [st' Hst'];
    [done| |lia|].
  { apply Forall_forall. intros r. apply Hr. }
  rewrite Hst'. pose proof (sort_children_same _ _ _ _ _ Hst') as Hsame.
  eexists. split; [done|]. simpl.
  split; [done|]. split; [done|]. split; [done|]. split.
  { rewrite Hp, Hroots. apply NoDup_filter, NoDup_seq. }
  split; [by eapply same_children_ok|].
  by rewrite Hp, <-(same_children_concat _ _ Hsame).
Qed.

(** The flattened tree lists exactly the messages whose chain of parents
    ends at a root, each once, with the length of that chain. *)
Lemma flatten_spec b :
  Tree.messages b = messages →
  (∀ r, r ∈ root_messages b ↔ rooted messages 0 r) →
  NoDup (root_messages b) →
  store_ok messages (children b) →
  ∃ flat, flatten_with_depth b = Some flat ∧
    NoDup flat.*1 ∧ ∀ x d, (x, d) ∈ flat ↔ rooted messages d x.
Proof.
  intros Hmsgs Hroots Hnd Hok. unfold flatten_with_depth. rewrite Hmsgs.
  assert (Forall (rooted messages 0) (root_messages b)) as Hall.
  { apply Forall_forall. intros r. apply Hroots. }
  destruct (mapM_is_Some_2
              (λ root, traverse (S n) (children b) root 0) (root_messages b))
    as [flat Hflat].
  { eapply Forall_impl; [exact Hall|]. intros r Hr.
    apply traverse_ends; [done..|lia]. }
  rewrite Hflat. simpl. eexists. split; [done|].
  apply mapM_Some in Hflat.
  destruct (lists_subtrees_concat 0 (root_messages b) flat) as [Hnd' Hin];
    [done..| |].
  { eapply lists_each; [|exact Hall|exact Hflat].
    intros r o Hr Ho.
    by apply (traverse_lists (children b) Hok (S n) 0 r o). }
  split; [done|]. intros x d. rewrite Hin. split.
  - intros (r & k & Hr & Hk & ->). apply Hroots in Hr.
    by eapply rooted_below.
  - intros (r & Hr & Hnone & Hlt). exists r, d.
    split; [apply Hroots; by apply rooted_zero|]. split; [done|lia].
Qed.


End tree_facts.

Section placement_facts.
Import Parser Tree.
Context (messages : list Message).

(** The map from ids to objects, after the first [k] messages: an id is
    mapped to the last message that carries it. *)
Lemma index_prefix k u :
  (k ≤ length messages)%nat →
  match foldl (index_step messages) ∅ (seq 0 k) !! u with
  | Some j =>
      (j < k)%nat ∧ (∃ m, messages !! j = Some m ∧ uuid m = u) ∧
      ∀ j' m', (j < j')%nat → (j' < k)%nat →
               messages !! j' = Some m' → uuid m' ≠ u
  | None => ∀ j m, (j < k)%nat → messages !! j = Some m → uuid m ≠ u
  end.
Proof.
  induction k as [|k IH]; intros Hk.
  - simpl. rewrite lookup_empty. intros; lia.
  - rewrite seq_S, foldl_app. simpl. unfold index_step at 1.
    destruct (lookup_lt_is_Some_2 messages k ltac:(lia)) as [m Hm].
    rewrite Hm. specialize (IH ltac:(lia)).
    destruct (decide (uuid m = u)) as [<-|Hne].
    + rewrite lookup_insert_eq. split; [lia|]. split; [by exists m|].
      intros; lia.
    + rewrite lookup_insert_ne by done.
      destruct (foldl _ _ _ !! u) as [j|].
      * destruct IH as (Hj & Hex & Hlast). split; [lia|]. split; [done|].
        intros j' m' H1 H2 Hm'.
        destruct (decide (j' = k)) as [->|Hk']; [congruence|].
        apply (Hlast j' m'); [done|lia|done].
      * intros j m0 Hj Hm0.
        destruct (decide (j = k)) as [->|Hk']; [congruence|].
        apply (IH j m0); [lia|done].
Qed.

Lemma index_uuids_Some u j :
  index_uuids messages !! u = Some j
  ↔ (∃ mj, messages !! j = Some mj ∧ uuid mj = u) ∧
    ∀ j' m', messages !! j' = Some m' → uuid m' = u → (j' ≤ j)%nat.
Proof.
  pose proof (index_prefix (length messages) u (le_n _)) as H.
  fold (index_uuids messages) in H. split.
  - intros Hj. rewrite Hj in H. destruct H as (_ & Hex & Hlast).
    split; [done|]. intros j' m' Hm' Hu.
    destruct (decide (j' ≤ j)%nat) as [|Hgt]; [done|].
    destruct (Hlast j' m'); [lia|by eapply lookup_lt_Some|done..].
  - intros [(mj & Hmj & Hu) Hlast].
    destruct (index_uuids messages !! u) as [j0|].
    + destruct H as (_ & (m0 & Hm0 & Hu0) & Hlast0). f_equal.
      pose proof (Hlast j0 m0 Hm0 Hu0).
      destruct (decide (j0 < j)%nat) as [Hlt|]; [|lia].
      destruct (Hlast0 j mj); [done|by eapply lookup_lt_Some|done..].
    + destruct (H j mj); [by eapply lookup_lt_Some|done..].
Qed.

Lemma index_uuids_None u :
  index_uuids messages !! u = None ↔ u ∉ uuid <$> messages.
Proof.
  pose proof (index_prefix (length messages) u (le_n _)) as H.
  fold (index_uuids messages) in H. split.
  - intros Hnone. rewrite Hnone in H.
    intros (m & -> & [j Hj]%list_elem_of_lookup)%list_elem_of_fmap.
    destruct (H j m); [by eapply lookup_lt_Some|done..].
  - intros Hu. destruct (index_uuids messages !! u) as [j|]; [|done].
    destruct H as (_ & (m & Hm & <-) & _). destruct Hu.
    apply list_elem_of_fmap. exists m. split; [done|].
    by eapply list_elem_of_lookup_2.
Qed.

(** The parent object of a message, in terms of the ids in the list. *)
Lemma parent_of_resolves i j :
  parent_of messages i = Some j ↔ resolves_to messages i j.
Proof.
  unfold parent_of, resolves_to. split.
  - destruct (messages !! i) as [m|]; [|done]. simpl. unfold parent_index.
    destruct (parent_uuid m) as [p|] eqn:Hp; [|done].
    destruct (String.eqb_spec p ""); [done|].
    intros [(mj & Hmj & Hu) Hlast]%index_uuids_Some.
    by exists m, p, mj.
  - intros (m & p & mj & -> & Hp & Hne & Hmj & Hu & Hlast). simpl.
    unfold parent_index. rewrite Hp.
    destruct (String.eqb_spec p ""); [done|].
    apply index_uuids_Some. split; [by exists mj|done].
Qed.

Lemma parent_of_dangling i m p :
  messages !! i = Some m → parent_uuid m = Some p →
  p ∉ uuid <$> messages → parent_of messages i = None.
Proof.
  intros Hm Hp Hu. unfold parent_of. rewrite Hm. simpl.
  unfold parent_index. rewrite Hp.
  destruct (String.eqb p ""); [done|]. by apply index_uuids_None.
Qed.

(** A chain of parents that ends at a root meets no cycle. *)
Lemma rooted_not_behind_cycle d i :
  rooted messages d i → ¬ behind_cycle messages i.
Proof.
  intros (r & Hr & Hnone & _) (k & c & Hk & [q Hq]).
  destruct (decide (k ≤ d)%nat) as [Hle|Hgt].
  - replace d with (k + (d - k))%nat in Hr by lia.
    rewrite anc_add, Hk in Hr. simpl in Hr.
    destruct (cycle_never_ends messages c q (d - k) r Hq Hr) as [x Hx].
    congruence.
  - replace k with (d + S (k - d - 1))%nat in Hk by lia.
    rewrite anc_add, Hr in Hk. simpl in Hk. by rewrite Hnone in Hk.
Qed.

Lemma lineage_shape d i :
  (i < length messages)%nat → is_Some (ancestor messages d i) →
  length (lineage messages d i) = S d ∧
  ∀ x, x ∈ lineage messages d i → (x < length messages)%nat.
Proof.
  revert i. induction d as [|d IH]; intros i Hi Hd.
  - simpl. split; [done|]. by intros x ->%list_elem_of_singleton.
  - simpl in Hd |- *.
    destruct (parent_of messages i) as [p|] eqn:Hp; [|by destruct Hd].
    simpl in Hd. destruct (IH p) as (Hlen & Hran); [|done|].
    { by apply par_lt in Hp as [_ ?]. }
    split; [simpl; by rewrite Hlen|].
    intros x [->|Hx]%elem_of_cons; [done|by apply Hran].
Qed.

(** A chain of parents visits distinct messages or runs into a cycle. *)
Lemma lineage_or_cycle d i :
  (i < length messages)%nat → is_Some (ancestor messages d i) →
  NoDup (lineage messages d i) ∨ behind_cycle messages i.
Proof.
  revert i. induction d as [|d IH]; intros i Hi Hd.
  - left. apply NoDup_singleton.
  - simpl in Hd |- *.
    destruct (parent_of messages i) as [p|] eqn:Hp; [|by destruct Hd].
    simpl in Hd. destruct (IH p) as [Hnd|(k & c & Hk & Hc)]; [|done| |].
    { by apply par_lt in Hp as [_ ?]. }
    + destruct (decide (i ∈ lineage messages d p)) as [Hin|Hout].
      * right. apply lineage_elem in Hin as (k & _ & Hk).
        exists 0%nat, i. split; [done|]. exists k. simpl. by rewrite Hp.
      * left. by apply NoDup_cons.
    + right. exists (S k), c. split; [|done]. simpl. by rewrite Hp.
Qed.

(** Every message hangs below a root or behind a cycle. *)
Lemma rooted_or_behind_cycle i :
  (i < length messages)%nat →
  (∃ d, rooted messages d i) ∨ behind_cycle messages i.
Proof.
  intros Hi.
  destruct (rooted_or_chain messages (length messages) i Hi) as [?|Hn];
    [by left|].
  destruct (lineage_or_cycle _ i Hi Hn) as [Hnd|?]; [|by right].
  destruct (lineage_shape _ i Hi Hn) as (Hlen & Hran).
  assert (lineage messages (length messages) i ⊆+ seq 0 (length messages))
    as Hsub.
  { apply NoDup_submseteq; [done|]. intros x Hx. apply elem_of_seq.
    specialize (Hran x Hx). lia. }
  apply submseteq_length in Hsub. rewrite Hlen, length_seq in Hsub. lia.
Qed.

End placement_facts.

(** C2, as stated, fails: a single message that names itself as parent is
    put into its own children list; [build] returns no root, and the tree
    it returns holds no message. *)
Lemma build_loses_self_parent :
  ∃ b, Tree.build Samples.self_parent = Some b ∧
    Tree.root_messages b = [] ∧ Tree.children b = [[0%nat]] ∧
    Tree.flatten_with_depth b = Some [].
Proof. eexists. vm_compute. repeat split; reflexivity. Qed.

(** C2, amended.  [build] returns, and it puts every message (named by its
    position in the input) in one place: among the roots when its parent
    reference does not resolve, and otherwise once in the children of the
    message it resolves to, the last message of the list with that id.  A
    message whose [parent_uuid] is the id of no message is a root.  The tree
    that is returned, as [flatten_with_depth] walks it from the roots, holds
    exactly once every message whose chain of parents does not run into a
    cycle, and no other message; it holds every message when no message is
    on a cycle of parent references. *)
Theorem build_places_each_message_once (messages : list Parser.Message) :
  ∃ b flat, Tree.build messages = Some b ∧
    Tree.flatten_with_depth b = Some flat ∧
    (∀ i j, parent_of messages i = Some j ↔ resolves_to messages i j) ∧
    (∀ i, i ∈ Tree.root_messages b
          ↔ (i < length messages)%nat ∧ ¬ ∃ j, resolves_to messages i j) ∧
    NoDup (Tree.root_messages b) ∧
    (∀ i j, i ∈ Tree.children b !!! j ↔ resolves_to messages i j) ∧
    (∀ j, NoDup (Tree.children b !!! j)) ∧
    (∀ i m p, messages !! i = Some m → Parser.parent_uuid m = Some p →
       p ∉ Parser.uuid <$> messages → i ∈ Tree.root_messages b) ∧
    NoDup flat.*1 ∧
    (∀ i, i ∈ flat.*1
          ↔ (i < length messages)%nat ∧ ¬ behind_cycle messages i) ∧
    ((∀ x, ¬ on_cycle messages x) → flat.*1 ≡ₚ seq 0 (length messages)).
Proof.
  destruct (build_spec messages)
    as (b & Hb & Hmsgs & Hmap & Hroots & Hnd & Hok & Hperm).
  destruct (flatten_spec messages b Hmsgs Hroots Hnd Hok)
    as (flat & Hflat & Hndf & Hin).
  exists b, flat. split; [done|]. split; [done|].
  split; [apply parent_of_resolves|].
  assert (∀ i, i ∈ flat.*1 ↔ ∃ d, rooted messages d i) as Hflat_rooted.
  { intros i. rewrite list_elem_of_fmap. split.
    - intros ([x d] & -> & Hx). exists d. by apply Hin.
    - intros [d Hd]. exists (i, d). split; [done|]. by apply Hin. }
  split; [|split; [done|split; [|split; [|split; [|split; [done|split]]]]]].
  - intros i. rewrite Hroots, rooted_zero. split.
    + intros [Hnone Hi]. split; [done|].
      intros [j Hj%parent_of_resolves]. congruence.
    + intros [Hi Hno]. split; [|done].
      destruct (parent_of messages i) as [j|] eqn:Hj; [|done].
      destruct Hno. exists j. by apply parent_of_resolves.
  - intros i j. rewrite <-parent_of_resolves. by apply store_ok_elem.
  - intros j. by apply (store_ok_NoDup messages).
  - intros i m p Hm Hp Hu. apply Hroots, rooted_zero.
    split; [by eapply parent_of_dangling|by eapply lookup_lt_Some].
  - intros i. rewrite Hflat_rooted. split.
    + intros [d Hd]. split; [by eapply rooted_in_range|].
      by eapply rooted_not_behind_cycle.
    + intros [Hi Hno].
      by destruct (rooted_or_behind_cycle messages i Hi) as [?|?].
  - intros Hacyc. apply NoDup_Permutation; [done|apply NoDup_seq|].
    intros x. rewrite elem_of_seq, Hflat_rooted. split.
    + intros [d Hd%rooted_in_range]. lia.
    + intros [_ Hx]. apply (acyclic_rooted messages x Hacyc). lia.
Qed.

(** On the sample: [d], whose parent is missing, and [a] are the roots; the
    messages [e], [f], [g] on parent cycles are in children lists only. *)
Example build_sample :
  (λ b, (Tree.root_messages b, Tree.children b,
         Tree.flatten_with_depth b, Tree._calculate_max_depth b))
    <$> Tree.build Samples.forest_and_cycles
  = Some ([3; 0], [[2; 1]; []; []; []; [4]; [6]; [5]],
          Some [(3, 0); (0, 0); (2, 1); (1, 1)], Some 1)%nat.
Proof. vm_compute. reflexivity. Qed.


(** * Further properties of the code *)

(** ** The parser and the decoder *)

Section more_decoder_facts.
Import Parser.
Context (lib : datetime_lib).



(** What a returned message says about its record. *)
Lemma parse_message_fields data m :
  _parse_message lib data = Ok (Some m) →
  raw_data m = data ∧ is_dict data = true ∧
  get_str data "uuid" = Some (uuid m) ∧ uuid m ≠ "" ∧
  type m = record_type data ∧
  (timestamp m, timestamp_ms m) = extract_timestamp lib data ∧
  (tool_name m, tool_use_id m) = extract_tool_info data (record_type data).
Proof.
  unfold _parse_message. destruct (is_dict data); [|done]. simpl.
  destruct (get_str data "uuid") as [id|]; [|done].
  destruct (String.eqb_spec id ""); [done|].
  destruct (extract_timestamp lib data) as [s ms].
  fold (record_type data).
  destruct (_extract_content data _); simpl; [|done].
  destruct (extract_tool_info data _). by intros [= <-].
Qed.

Lemma elem_of_parse_file m ls :
  m ∈ _parse_file lib ls → ∃ data, _parse_message lib data = Ok (Some m).
Proof.
  unfold _parse_file. rewrite list_elem_of_omap.
  intros ([| |data] & _ & H); try done. exists data. simpl in H.
  by destruct (_parse_message lib data) as [[m'|]|]; simplify_eq.
Qed.

Lemma elem_of_parse_all m files :
  m ∈ parse_all lib files → ∃ data, _parse_message lib data = Ok (Some m).
Proof.
  unfold parse_all. rewrite sort_perm. unfold collect.
  rewrite list_elem_of_bind. intros ([|ls] & H & _); [by apply elem_of_nil in H|].
  by eapply elem_of_parse_file.
Qed.

End more_decoder_facts.


(** X2.  Every message of a parse result carries the record it was decoded
    from: decoding [raw_data] again gives the message itself, and its [uuid]
    is the non-empty id of that record. *)
Theorem parse_all_raw_data (lib : Parser.datetime_lib)
    (jsonl_files : list Parser.file) :
  Forall (λ m,
    Parser._parse_message lib (Parser.raw_data m) = Ok (Some m) ∧
    get_str (Parser.raw_data m) "uuid" = Some (Parser.uuid m) ∧
    Parser.uuid m ≠ "")
    (Parser.parse_all lib jsonl_files).
Proof.
  apply Forall_forall. intros m (data & Hm)%elem_of_parse_all.
  destruct (parse_message_fields lib data m Hm) as (-> & _ & Hid & Hne & _).
  done.
Qed.

Section timestamp_kinds.
Import Parser.
Context (lib : datetime_lib).

Lemma extract_timestamp_kinds data :
  (is_str (extract_timestamp lib data).1 = true ∨
   ((extract_timestamp lib data).2 = 0%Z ∧
    is_number (extract_timestamp lib data).1 = true ∧
    (extract_timestamp lib data).1 = get data "timestamp")) ∧
  (∀ s, get data "timestamp" = VStr s →
        (extract_timestamp lib data).1 = VStr s).
Proof.
  unfold extract_timestamp, get, get_or.
  destruct data as [ |b|n|f|s|l|d]; simpl;
    try (split; [left; by destruct (fromisoformat_ms lib "")|done]).
  destruct (lookup_key "timestamp" d) as [[ |b|n|f|s|l|d']|]; simpl.
  - split; [by left|done].
  - split; [|done]. destruct (fromtimestamp_iso lib _); simpl; [by left|by right].
  - split; [|done]. destruct (fromtimestamp_iso lib _); simpl; [by left|by right].
  - split; [|done]. destruct f as [ | |num den]; simpl; try by right.
    destruct (fromtimestamp_iso lib _); simpl; [by left|by right].
  - split.
    + left. by destruct (fromisoformat_ms lib _).
    + intros t [= ->]. by destruct (fromisoformat_ms lib _).
  - split; [by left|done].
  - split; [by left|done].
  - split; [left; by destruct (fromisoformat_ms lib "")|done].
Qed.

End timestamp_kinds.

(** X3.  In a parse result the [timestamp] of a message is a string, except
    where the record held a number that could not be converted: the number
    is then left in place and [timestamp_ms] is 0.  A timestamp that is a
    string in the record is kept as written. *)
Theorem parse_all_timestamp_kinds (lib : Parser.datetime_lib)
    (jsonl_files : list Parser.file) :
  Forall (λ m,
    (is_str (Parser.timestamp m) = true ∨
     (Parser.timestamp_ms m = 0%Z ∧ is_number (Parser.timestamp m) = true ∧
      Parser.timestamp m = get (Parser.raw_data m) "timestamp")) ∧
    (∀ s, get (Parser.raw_data m) "timestamp" = VStr s →
          Parser.timestamp m = VStr s))
    (Parser.parse_all lib jsonl_files).
Proof.
  apply Forall_forall. intros m (data & Hm)%elem_of_parse_all.
  destruct (parse_message_fields lib data m Hm) as (-> & _ & _ & _ & _ & Hts & _).
  pose proof (extract_timestamp_kinds lib data) as H.
  rewrite <-Hts in H. exact H.
Qed.

Section content_facts.
Import Parser.

Lemma get_list_get_or v k d items :
  get v k = VList items → get_or v k d = VList items.
Proof.
  unfold get, get_or. destruct v; try done.
  by destruct (lookup_key k _).
Qed.

Lemma get_dict_has_key v k d :
  get v k = VDict d → has_key v k = true.
Proof.
  unfold get, get_or, has_key. destruct v as [ | | | | | |d0]; try done.
  destruct (lookup_key k d0); [|done]. intros _. by apply bool_decide_eq_true.
Qed.

Lemma type_is_other item a b : type_is item a = true → a ≠ b → type_is item b = false.
Proof.
  unfold type_is, eq_str. destruct (get item "type"); try done.
  intros ->%String.eqb_eq Hne. by apply String.eqb_neq.
Qed.

Lemma join_lines_strings parts :
  Forall (λ v, is_str v = true) parts → join_lines parts ≠ Raise.
Proof.
  intros H. unfold join_lines.
  destruct (mapM_is_Some_2 as_str parts) as [ss ->]; [|done].
  eapply Forall_impl; [exact H|].
  intros [ | | | |s| |]; simpl; try done.
Qed.

Lemma text_or_strings parts content :
  Forall (λ v, is_str v = true) parts → text_or parts content ≠ Raise.
Proof.
  intros H. destruct parts as [|p parts]; [done|].
  unfold text_or. pose proof (join_lines_strings _ H) as Hj.
  by destruct (join_lines (p :: parts)).
Qed.

Lemma assistant_parts_strings items :
  Forall (λ item, block_of_type "text" item → is_str (text_of item) = true) items →
  Forall (λ v, is_str v = true) (assistant_text_parts items).
Proof.
  unfold assistant_text_parts. induction 1 as [|item items Hitem _ IH]; [done|].
  simpl. destruct (is_dict item && type_is item "text") eqn:E; [|done].
  apply andb_true_iff in E. csimpl. constructor; [by apply Hitem|done].
Qed.

Lemma user_parts_strings items parts :
  Forall (λ item, block_of_type "text" item → is_str (text_of item) = true) items →
  Forall (λ v, is_str v = true) parts →
  match user_parts items parts with
  | inl _ => True
  | inr parts' => Forall (λ v, is_str v = true) parts'
  end.
Proof.
  intros H. revert parts. induction H as [|item items Hitem _ IH]; intros parts Hp.
  - done.
  - simpl. destruct (is_dict item) eqn:Ed; [|by apply IH].
    destruct (type_is item "text") eqn:Et.
    + apply IH. apply Forall_app. split; [done|].
      constructor; [by apply Hitem|done].
    + destruct (type_is item "tool_result"); [done|by apply IH].
Qed.

(** The loop over a user's content returns at the first tool result. *)
Lemma user_parts_first_result pre item rest parts :
  Forall (λ x, ¬ block_of_type "tool_result" x) pre →
  block_of_type "tool_result" item →
  user_parts (pre ++ item :: rest) parts = inl item.
Proof.
  intros Hpre [Hd Ht]. revert parts.
  induction Hpre as [|x pre Hx _ IH]; intros parts; simpl.
  - rewrite Hd, (type_is_other item "tool_result" "text") by done.
    by rewrite Ht.
  - destruct (is_dict x) eqn:Ed; [|apply IH].
    destruct (type_is x "text"); [apply IH|].
    destruct (type_is x "tool_result") eqn:Et; [|apply IH].
    destruct Hx. by split.
Qed.

(** What the scan for tool blocks returns when it returns a tool name. *)
Lemma scan_tool_blocks_name items id n u :
  scan_tool_blocks items None id = (Some n, u) →
  ∃ pre item rest, items = pre ++ item :: rest ∧
    Forall (λ x, ¬ block_of_type "tool_use" x) pre ∧
    block_of_type "tool_use" item ∧
    get_str item "name" = Some n ∧ u = get_str item "id".
Proof.
  revert id u. induction items as [|x items IH]; intros id u; simpl; [done|].
  destruct (is_dict x && type_is x "tool_use") eqn:E.
  - intros [= Hn <-]. exists [], x, items.
    apply andb_true_iff in E. split; [done|]. split; [constructor|]. done.
  - assert (¬ block_of_type "tool_use" x) as Hx.
    { intros [H1 H2]. by rewrite H1, H2 in E. }
    destruct (is_dict x && type_is x "tool_result").
    + intros (pre & item & rest & -> & Hpre & H)%IH.
      exists (x :: pre), item, rest. split; [done|]. split; [by constructor|done].
    + intros (pre & item & rest & -> & Hpre & H)%IH.
      exists (x :: pre), item, rest. split; [done|]. split; [by constructor|done].
Qed.

End content_facts.

(** X4.  A record with an id whose text blocks all hold strings decodes to
    a message: no other content makes the decoder raise. *)
Theorem well_typed_text_decodes (lib : Parser.datetime_lib) (data : value) :
  has_id data → texts_are_strings data → decodes lib data.
Proof.
  intros Hid Htexts. apply decodes_iff; [done|].
  unfold texts_are_strings, content_items in Htexts.
  unfold Parser._extract_content.
  assert (∀ b, (if has_key data "content" then Ok (get data "content")
                else if b : bool then Ok (get_or data "snapshot" (VDict []))
                else Ok data) ≠ @Raise value) as Hfall.
  { intros b. destruct (has_key data "content"); [done|]. by destruct b. }
  destruct (has_key data "message" && is_dict (get data "message")); [|done].
  destruct (eq_str (get (get data "message") "role") "assistant").
  { destruct (get_or (get data "message") "content" (VList [])); try done.
    by apply text_or_strings, assistant_parts_strings. }
  destruct (eq_str (get (get data "message") "role") "user"); [|done].
  destruct (get (get data "message") "content") as [ | | | | |items| ] eqn:Ec;
    try done.
  rewrite (get_list_get_or _ _ (VList []) _ Ec) in Htexts.
  pose proof (user_parts_strings items [] Htexts (Forall_nil_2 _)) as Hparts.
  destruct (Parser.user_parts items []) as [item|parts]; [done|].
  by apply text_or_strings.
Qed.

Lemma well_typed_text_decodes_witness :
  decodes Samples.stub_datetime Samples.text_then_results.
Proof.
  apply (well_typed_text_decodes Samples.stub_datetime Samples.text_then_results).
  - split; [reflexivity|]. exists "u2". split; [reflexivity|discriminate].
  - repeat constructor.
Defined.

(** X5.  In a user message the first tool result of the content list is the
    extracted content, whatever stands beside it: text blocks before it are
    not kept and nothing after it is read. *)
Theorem user_content_first_tool_result (data : value) (msg_type : string)
    (message : list (string * value)) (pre rest : list value) (item : value) :
  get data "message" = VDict message →
  get (VDict message) "role" = VStr "user" →
  get (VDict message) "content" = VList (pre ++ item :: rest) →
  Forall (λ x, ¬ block_of_type "tool_result" x) pre →
  block_of_type "tool_result" item →
  Parser._extract_content data msg_type = Ok item.
Proof.
  intros Hmsg Hrole Hcontent Hpre Hitem. unfold Parser._extract_content.
  rewrite (get_dict_has_key _ _ _ Hmsg), Hmsg, Hrole, Hcontent. simpl.
  by rewrite user_parts_first_result.
Qed.

Lemma user_content_first_tool_result_witness :
  Parser._extract_content Samples.text_then_results "user"
  = Ok (VDict [("type", VStr "tool_result"); ("tool_use_id", VStr "toolu_1")]).
Proof.
  apply (user_content_first_tool_result Samples.text_then_results "user"
           [ ("role", VStr "user");
             ("content", get_or (get Samples.text_then_results "message")
                           "content" VNone) ]
           [VDict [("type", VStr "text"); ("text", VStr "see")]]
           [VDict [("type", VStr "tool_result"); ("tool_use_id", VStr "toolu_2")]]).
  - reflexivity.
  - reflexivity.
  - reflexivity.
  - constructor; [|constructor]. intros [_ H]. discriminate H.
  - split; reflexivity.
Defined.

(** X6.  A decoded message has a tool name and tool id only if its type is
    [tool_use] or [tool_result]; when it has a tool name, name and id are
    both those of the first [tool_use] block of its content. *)
Theorem tool_fields_from_first_tool_use (lib : Parser.datetime_lib)
    (data : value) (m : Parser.Message) :
  Parser._parse_message lib data = Ok (Some m) →
  (Parser.type m ≠ "tool_use" → Parser.type m ≠ "tool_result" →
   Parser.tool_name m = None ∧ Parser.tool_use_id m = None) ∧
  (∀ n, Parser.tool_name m = Some n →
     ∃ pre item rest, content_items data = pre ++ item :: rest ∧
       Forall (λ x, ¬ block_of_type "tool_use" x) pre ∧
       block_of_type "tool_use" item ∧
       get_str item "name" = Some n ∧
       Parser.tool_use_id m = get_str item "id").
Proof.
  intros Hm.
  destruct (parse_message_fields lib data m Hm) as (_ & _ & _ & _ & Hty & _ & Htool).
  rewrite <-Hty in Htool. unfold Parser.extract_tool_info in Htool. split.
  - intros H1%String.eqb_neq H2%String.eqb_neq. rewrite H1, H2 in Htool.
    by injection Htool as -> ->.
  - intros n Hn. unfold content_items.
    destruct (String.eqb (Parser.type m) "tool_use"
              || String.eqb (Parser.type m) "tool_result");
      [|by simplify_eq].
    destruct (has_key data "message" && is_dict (get data "message"));
      [|by simplify_eq].
    destruct (get_or (get data "message") "content" (VList []))
      as [ | | | | |items| ]; try by simplify_eq.
    rewrite Hn in Htool. symmetry in Htool.
    by apply scan_tool_blocks_name in Htool.
Qed.

Lemma tool_fields_from_first_tool_use_witness :
  ∃ pre item rest,
    content_items Samples.result_then_uses = pre ++ item :: rest ∧
    Forall (λ x, ¬ block_of_type "tool_use" x) pre ∧
    block_of_type "tool_use" item ∧
    get_str item "name" = Some "Read" ∧
    Parser.tool_use_id Samples.result_then_uses_message = get_str item "id".
Proof.
  apply (tool_fields_from_first_tool_use Samples.stub_datetime
           Samples.result_then_uses Samples.result_then_uses_message).
  - reflexivity.
  - reflexivity.
Defined.

(** ** More on the cache *)

Section more_cache_facts.
Import Cache.
Context (e : env) (self : CacheManager).

Lemma ends_with_app (s suffix : string) :
  ends_with (s ++ suffix)%string suffix = true.
Proof.
  induction s as [|c s IH].
  - change ("" ++ suffix)%string with suffix.
    destruct suffix; simpl; [done|]. by rewrite Ascii.eqb_refl, String.eqb_refl.
  - rewrite string_cons_app. simpl. rewrite IH. apply orb_true_r.
Qed.

(** A file older than [ttl_seconds] is not read. *)
Lemma get_expired w path f :
  cache_files w !! get_cache_path (get_cache_key e w path) = Some f →
  (ttl_seconds self < now w - cf_mtime f)%Z →
  get e self w path = None.
Proof.
  unfold get, is_cache_valid. intros -> Hage.
  by destruct (Z.gtb_spec (now w - cf_mtime f) (ttl_seconds self)); [|lia].
Qed.

Lemma size_filter_bool {A} (p : string → bool) (m : gmap string A) :
  (size (filter (λ kv, p kv.1 = true) m) + size (filter (λ kv, p kv.1 = false) m)
   = size m)%nat.
Proof.
  rewrite <-(map_filter_union_complement (λ kv, p kv.1 = true) m) at 3.
  rewrite map_size_disj_union by apply map_disjoint_filter_complement.
  f_equal. f_equal. apply map_filter_ext. intros i x _. simpl.
  by destruct (p i).
Qed.

End more_cache_facts.

(** X7.  A cache entry expires: more than [ttl_seconds] after the write, a
    [get] for the same project misses although its log files are unchanged
    and the entry is still in the directory. *)
Theorem cache_entry_expires (e : Cache.env) (self : Cache.CacheManager)
    (w w1 w2 : Cache.world) (project_path : string)
    (msgs : list Cache.MessageObj) :
  Cache.set e w project_path msgs = (true, w1) →
  Cache.log_mtimes w2 project_path = Cache.log_mtimes w1 project_path →
  Cache.cache_files w2 = Cache.cache_files w1 →
  (Cache.ttl_seconds self < Cache.now w2 - Cache.now w1)%Z →
  Cache.get e self w2 project_path = None.
Proof.
  intros Hset Hlogs Hfiles Hage.
  assert (Cache.get_cache_key e w2 project_path
          = Cache.get_cache_key e w project_path) as Hkey.
  { apply key_of_latest. unfold latest_mtime.
    by rewrite Hlogs, (set_keeps_logs e _ _ _ _ _ Hset). }
  unfold Cache.set in Hset. destruct (Cache.cache_writable w); [|done].
  injection Hset as <-.
  eapply (get_expired e self w2 project_path).
  - rewrite Hkey, Hfiles. cbn [Cache.cache_files]. apply lookup_insert_eq.
  - done.
Qed.

Lemma cache_entry_expires_witness :
  Cache.get Samples.plain_env Samples.hour_cache
    (Samples.later [10; 20]%Z 3601
       (Cache.set Samples.plain_env Samples.two_logs "proj"
          [Cache.mkObj Samples.message_a []]).2)
    "proj"
  = None.
Proof.
  apply (cache_entry_expires Samples.plain_env Samples.hour_cache
           Samples.two_logs
           (Cache.set Samples.plain_env Samples.two_logs "proj"
              [Cache.mkObj Samples.message_a []]).2
           _ "proj" [Cache.mkObj Samples.message_a []]).
  - reflexivity.
  - reflexivity.
  - reflexivity.
  - vm_compute. reflexivity.
Defined.

(** X8.  [clear] for a project removes the file of the project's current
    key and nothing else: it returns 1 when there was such a file and 0 when
    there was none, and the next [get] for the project misses. *)
Theorem clear_project_then_miss (e : Cache.env) (self : Cache.CacheManager)
    (can_unlink : string → bool) (w w' : Cache.world) (project_path : string)
    (count : nat) :
  Cache.clear e can_unlink w (Some project_path) = Ok (count, w') →
  Cache.get e self w' project_path = None ∧
  count = match Cache.cache_files w
                 !! Cache.get_cache_path (Cache.get_cache_key e w project_path)
          with Some _ => 1%nat | None => 0%nat end ∧
  Cache.log_mtimes w' = Cache.log_mtimes w ∧
  ∀ p, p ≠ Cache.get_cache_path (Cache.get_cache_key e w project_path) →
       Cache.cache_files w' !! p = Cache.cache_files w !! p.
Proof.
  unfold Cache.clear.
  destruct (Cache.cache_files w !! _) as [f|] eqn:Hf.
  - destruct (can_unlink _); [|done]. intros [= <- <-].
    split; [|split; [done|split; [done|]]].
    + apply get_without_file. cbn [Cache.cache_files].
      apply lookup_delete_eq.
    + intros p Hp. cbn [Cache.cache_files]. by apply lookup_delete_ne.
  - intros [= <- <-]. split; [|done]. by apply get_without_file.
Qed.

Lemma clear_project_then_miss_witness :
  Cache.get Samples.plain_env Samples.hour_cache
    {| Cache.log_mtimes _ := Ok [10; 20]%Z;
       Cache.cache_files :=
         delete "proj_20.cache"
           (Cache.cache_files
              (Cache.set Samples.plain_env Samples.two_logs "proj"
                 [Cache.mkObj Samples.message_a []]).2);
       Cache.cache_writable := true;
       Cache.now := 100 |}
    "proj"
  = None.
Proof.
  apply (clear_project_then_miss Samples.plain_env Samples.hour_cache
           (λ _, true)
           (Cache.set Samples.plain_env Samples.two_logs "proj"
              [Cache.mkObj Samples.message_a []]).2
           _ "proj" 1).
  reflexivity.
Defined.

(** X9.  [clear] without a project never raises: it removes the [*.cache]
    files it can remove, returns their number and leaves every other file.
    When it can remove them all, every later [get] misses. *)
Theorem clear_all_then_miss (e : Cache.env) (self : Cache.CacheManager)
    (can_unlink : string → bool) (w : Cache.world) :
  ∃ count w', Cache.clear e can_unlink w None = Ok (count, w') ∧
    (count + size (Cache.cache_files w') = size (Cache.cache_files w))%nat ∧
    (∀ p, Cache.ends_with p ".cache" && can_unlink p = false →
          Cache.cache_files w' !! p = Cache.cache_files w !! p) ∧
    ((∀ p, can_unlink p = true) →
     ∀ project_path, Cache.get e self w' project_path = None).
Proof.
  eexists _, _. split; [reflexivity|]. cbn [Cache.cache_files].
  split; [|split].
  - apply (size_filter_bool (λ p, Cache.ends_with p ".cache" && can_unlink p)).
  - intros p Hp. rewrite map_lookup_filter.
    destruct (Cache.cache_files w !! p) as [f|]; [|done]. simpl.
    by rewrite option_guard_True.
  - intros Hall project_path. apply get_without_file.
    cbn [Cache.cache_files Cache.log_mtimes].
    apply map_lookup_filter_None_2. right. intros f _. simpl.
    unfold Cache.get_cache_path. rewrite ends_with_app, Hall. done.
Qed.

(** ** More on the tree builder *)

Section sorted_store.
Import Parser Tree.
Context (messages : list Message).

Abbreviation srt := (sort Z.ltb (ts messages)).











End sorted_store.


Section depth_facts.
Import Parser Tree.






End depth_facts.


(** On the sample: seven messages, the roots [d] and [a], and one level of
    children below them. *)
Example statistics_sample :
  (λ stats, (Tree.total_messages stats, Tree.stat_root_messages stats,
             Tree.max_depth stats, Tree.stat_message_types stats,
             Tree.sessions stats))
    <$> (Tree.build Samples.forest_and_cycles ≫= Tree.get_statistics)
  = Some (7, 2, 1, [("user", 7)], 0)%nat.
Proof. vm_compute. reflexivity. Qed.

(** ** Counting and grouping *)

Section count_facts.
Import Parser Tree.
Context {A : Type} (key : A → string).

Lemma count_up_keys k d :
  (count_up k d).*1 = if decide (k ∈ d.*1) then d.*1 else d.*1 ++ [k].
Proof.
  induction d as [|[k' c] rest IH]; csimpl; [done|].
  destruct (String.eqb_spec k' k) as [->|Hne]; csimpl.
  - by rewrite decide_True by left.
  - rewrite IH. destruct (decide (k ∈ rest.*1)) as [H|H].
    + by rewrite decide_True by by right.
    + rewrite decide_False; [done|]. by intros [->|?]%elem_of_cons.
Qed.

Lemma count_up_sum k d : sum_list (count_up k d).*2 = S (sum_list d.*2).
Proof.
  induction d as [|[k' c] rest IH]; csimpl; [done|].
  destruct (String.eqb k' k); csimpl; [done|]. rewrite IH. lia.
Qed.

(** The entry of [k] after [count_up k]: one more than before, or 1. *)
Lemma count_up_entries k d :
  NoDup d.*1 →
  count_up k d
  = if decide (k ∈ d.*1)
    then (λ kv, if decide (kv.1 = k) then (kv.1, S kv.2) else kv) <$> d
    else d ++ [(k, 1%nat)].
Proof.
  induction d as [|[k' c] rest IH]; csimpl; intros Hnd; [done|].
  apply NoDup_cons in Hnd as [Hk' Hnd].
  destruct (String.eqb_spec k' k) as [->|Hne]; csimpl.
  - rewrite (decide_True (P := k ∈ k :: rest.*1)) by left.
    rewrite (decide_True (P := k = k)) by done. f_equal.
    symmetry. rewrite <-(list_fmap_id rest) at 2. apply list_fmap_ext.
    intros i [k0 c0] Hi. simpl. rewrite decide_False; [done|].
    intros ->. apply Hk'. apply list_elem_of_fmap. exists (k, c0).
    split; [done|]. by eapply list_elem_of_lookup_2.
  - rewrite IH by done. rewrite (decide_False (P := k' = k)) by done.
    destruct (decide (k ∈ rest.*1)) as [H|H].
    + by rewrite decide_True by by right.
    + rewrite decide_False; [done|]. by intros [->|?]%elem_of_cons.
Qed.

(** The counting loop: one entry per key seen, holding the number of
    elements with that key. *)
Lemma count_loop l :
  NoDup (foldl (λ d a, count_up (key a) d) [] l).*1 ∧
  (∀ k, k ∈ (foldl (λ d a, count_up (key a) d) [] l).*1 ↔ k ∈ key <$> l) ∧
  Forall (λ kv, kv.2 = length (filter (λ a, key a = kv.1) l))
    (foldl (λ d a, count_up (key a) d) [] l) ∧
  sum_list (foldl (λ d a, count_up (key a) d) [] l).*2 = length l.
Proof.
  induction l as [|a l (Hnd & Hkeys & Hall & Hsum)] using rev_ind.
  - split; [constructor|]. split; [done|]. split; [constructor|done].
  - rewrite foldl_app. simpl.
    set (d := foldl _ _ l) in *. split; [|split; [|split]].
    + rewrite count_up_keys. case_decide as Hin; [done|].
      apply NoDup_app. split; [done|]. split; [|apply NoDup_singleton].
      by intros k Hk ->%list_elem_of_singleton.
    + intros k. rewrite count_up_keys, fmap_app, elem_of_app.
      rewrite <-Hkeys. simpl. rewrite list_elem_of_singleton.
      case_decide as Hin; [|rewrite elem_of_app, list_elem_of_singleton; tauto].
      split; [tauto|]. by intros [?| ->].
    + rewrite count_up_entries by done. case_decide as Hin.
      * rewrite Forall_fmap. eapply Forall_impl; [exact Hall|].
        intros [k c] Hc. simpl in *.
        rewrite filter_app, filter_cons, filter_nil, length_app.
        case_decide as Hk; simpl.
        -- subst k. rewrite decide_True by done. simpl. lia.
        -- rewrite decide_False by done. simpl. lia.
      * apply Forall_app. split.
        -- apply Forall_forall. intros [k c] Hkv.
           rewrite Forall_forall in Hall. specialize (Hall _ Hkv). simpl in *.
           rewrite filter_app, filter_cons, filter_nil, decide_False, app_nil_r;
             [done|].
           intros Heq. apply Hin. rewrite Heq.
           apply list_elem_of_fmap. by exists (k, c).
        -- constructor; [|done]. simpl.
           rewrite filter_app, filter_cons, filter_nil, decide_True by done.
           rewrite filter_none; [done|].
           intros x Hx Heq. apply Hin, Hkeys. rewrite <-Heq.
           by apply list_elem_of_fmap_2.
    + rewrite count_up_sum, Hsum, length_app. simpl. lia.
Qed.

End count_facts.

(** X12.  [_count_message_types] has one entry per message type that
    occurs, holding the number of messages of that type; the counts add up
    to the number of messages. *)
Theorem message_type_counts (messages : list Parser.Message) :
  NoDup (Tree._count_message_types messages).*1 ∧
  (∀ t, t ∈ (Tree._count_message_types messages).*1
        ↔ t ∈ Parser.type <$> messages) ∧
  Forall (λ kv, kv.2 = length (filter (λ m, Parser.type m = kv.1) messages))
    (Tree._count_message_types messages) ∧
  sum_list (Tree._count_message_types messages).*2 = length messages.
Proof. apply (count_loop Parser.type). Qed.

Section group_facts.
Import Parser Tree.




Lemma group_by_session_groups_of messages :
  NoDup (group_by_session messages).*1 ∧
  (∀ k, k ∈ (group_by_session messages).*1 ↔ k ∈ session_key <$> messages) ∧
  Forall (λ kv, kv.2 ≠ [] ∧ kv.2 = session_group messages kv.1)
    (group_by_session messages).
Proof.
  destruct (group_by_session_groups messages) as (keys & Hnd & Hkeys & ->).
  rewrite <-list_fmap_compose.
  assert ((fst ∘ (λ k, (k, session_group messages k))) <$> keys = keys) as ->.
  { rewrite <-(list_fmap_id keys) at 2. by apply list_fmap_ext. }
  split; [done|]. split; [done|].
  apply Forall_fmap, Forall_forall. intros k Hk. simpl.
  split; [|done]. by apply session_group_nonempty, Hkeys.
Qed.



End group_facts.


Section session_count_facts.
Import Parser Tree.
Context (messages : list Message).

Abbreviation ids :=
  (list_to_set (C := gset string)
     (omap (λ m, truthy_str (session_id m)) messages)).
Abbreviation keys :=
  (list_to_set (C := gset string) (session_key <$> messages)).

Lemma session_key_default m :
  session_key m = default "unknown" (truthy_str (session_id m)).
Proof.
  unfold session_key, truthy_str. destruct (session_id m) as [s|]; [|done].
  by destruct (String.eqb s "").
Qed.

Lemma elem_of_ids k :
  k ∈ ids ↔ ∃ m, m ∈ messages ∧ truthy_str (session_id m) = Some k.
Proof. by rewrite elem_of_list_to_set, list_elem_of_omap. Qed.

Lemma elem_of_keys k : k ∈ keys ↔ ∃ m, m ∈ messages ∧ session_key m = k.
Proof.
  rewrite elem_of_list_to_set, list_elem_of_fmap.
  split; intros (m & H1 & H2); by exists m.
Qed.

Lemma groups_size : length (group_by_session messages) = size keys.
Proof.
  destruct (group_by_session_groups_of messages) as (Hnd & Hkeys & _).
  rewrite <-(length_fmap fst), <-(size_list_to_set (C := gset string)) by done.
  f_equal. apply set_eq. intros k.
  by rewrite !elem_of_list_to_set, Hkeys.
Qed.

Lemma keys_with_ids :
  Forall (λ m, is_Some (truthy_str (session_id m))) messages → keys = ids.
Proof.
  intros Hall. apply set_eq. intros k. rewrite elem_of_keys, elem_of_ids.
  rewrite Forall_forall in Hall.
  split; intros (m & Hm & Hk); exists m; (split; [done|]);
    rewrite session_key_default in *; destruct (Hall m Hm) as [s Hs];
    rewrite Hs in *; simpl in *; congruence.
Qed.

Lemma keys_with_unknown :
  Exists (λ m, truthy_str (session_id m) = None) messages →
  keys = ids ∪ {["unknown"]}.
Proof.
  intros (m0 & Hm0 & Hnone)%Exists_exists. apply set_eq. intros k.
  rewrite elem_of_union, elem_of_singleton, elem_of_keys, elem_of_ids. split.
  - intros (m & Hm & <-). rewrite session_key_default.
    destruct (truthy_str (session_id m)) as [s|] eqn:Hs; simpl.
    + left. by exists m.
    + by right.
  - intros [(m & Hm & Hs)| ->].
    + exists m. split; [done|]. by rewrite session_key_default, Hs.
    + exists m0. split; [done|]. by rewrite session_key_default, Hnone.
Qed.

End session_count_facts.

(** X14.  The [sessions] statistic counts the distinct non-empty session
    ids, while the session list has one group per session key: the two
    numbers are equal, except that the messages without a session id form
    one more group, [unknown], unless a session of that very name exists. *)
Theorem session_count_and_groups (messages : list Parser.Message) :
  (Tree.count_distinct Parser.session_id messages
   ≤ length (Tree.group_by_session messages)
   ≤ Tree.count_distinct Parser.session_id messages + 1)%nat ∧
  (length (Tree.group_by_session messages)
   = (Tree.count_distinct Parser.session_id messages + 1)%nat
   ↔ Exists (λ m, Tree.truthy_str (Parser.session_id m) = None) messages ∧
     Forall (λ m, Parser.session_id m ≠ Some "unknown") messages).
Proof.
  rewrite groups_size. unfold Tree.count_distinct.
  destruct (decide (Exists (λ m, Tree.truthy_str (Parser.session_id m) = None)
                      messages)) as [Hex|Hall].
  - rewrite (keys_with_unknown messages Hex).
    destruct (decide ("unknown" ∈ list_to_set (C := gset string)
                (omap (λ m, Tree.truthy_str (Parser.session_id m)) messages)))
      as [Hin|Hout].
    + assert (list_to_set (omap (λ m, Tree.truthy_str (Parser.session_id m))
                             messages) ∪ {["unknown"]}
              = list_to_set (C := gset string)
                  (omap (λ m, Tree.truthy_str (Parser.session_id m)) messages))
        as ->.
      { apply set_eq. intros k. rewrite elem_of_union, elem_of_singleton.
        split; [by intros [?| ->]|by left]. }
      split; [lia|]. split; [lia|]. intros [_ Hno]. exfalso.
      apply elem_of_ids in Hin as (m & Hm & Hs).
      rewrite Forall_forall in Hno. apply (Hno m Hm).
      unfold Tree.truthy_str in Hs.
      destruct (Parser.session_id m) as [s|]; [|done].
      destruct (String.eqb s ""); congruence.
    + rewrite size_union, size_singleton.
      2:{ intros k Hk ->%elem_of_singleton. by apply Hout. }
      split; [lia|]. split; [|done]. intros _. split; [done|].
      apply Forall_forall. intros m Hm Hs. apply Hout, elem_of_ids.
      exists m. split; [done|]. by rewrite Hs.
  - rewrite keys_with_ids.
    + split; [lia|]. split; [lia|]. by intros [? _].
    + apply Forall_Exists_neg in Hall. eapply Forall_impl; [exact Hall|].
      intros m Hm. simpl in Hm.
      destruct (Tree.truthy_str (Parser.session_id m)); [by eexists|done].
Qed.

(** ** The application *)

Section name_facts.
Import App.

Lemma split_nonempty sep s : split sep s ≠ [].
Proof.
  destruct s as [|c s]; simpl; [done|].
  destruct (Ascii.eqb c sep); [done|]. by destruct (split sep s).
Qed.

Lemma join_cons_char sep c p ps :
  join sep (String c p :: ps) = String c (join sep (p :: ps)).
Proof. by destruct ps. Qed.

Lemma join_split sep s : join (String sep "") (split sep s) = s.
Proof.
  induction s as [|c s IH]; [done|]. simpl.
  destruct (Ascii.eqb_spec c sep) as [->|Hne].
  - pose proof (split_nonempty sep s) as Hs.
    destruct (split sep s) as [|p ps]; [done|].
    change (join (String sep "") ("" :: p :: ps))
      with (String sep (join (String sep "") (p :: ps))).
    by rewrite IH.
  - destruct (split sep s) as [|p ps] eqn:Hs; [by destruct (split_nonempty sep s)|].
    by rewrite join_cons_char, IH.
Qed.

Lemma split_free sep p :
  mentions sep p = false → split sep p = [p].
Proof.
  induction p as [|c p IH]; simpl; [done|].
  intros [Hc Hp]%orb_false_iff. rewrite Hc, IH by done. done.
Qed.

Lemma split_app sep p rest :
  mentions sep p = false →
  split sep (p ++ String sep rest) = p :: split sep rest.
Proof.
  induction p as [|c p IH]; simpl.
  - intros _. by rewrite Ascii.eqb_refl.
  - intros [Hc Hp]%orb_false_iff. by rewrite Hc, IH.
Qed.

Lemma split_join sep parts :
  parts ≠ [] → Forall (λ p, mentions sep p = false) parts →
  split sep (join (String sep "") parts) = parts.
Proof.
  intros Hne Hall. induction Hall as [|p ps Hp Hps IH]; [done|].
  destruct ps as [|q ps].
  - by apply split_free.
  - change (join (String sep "") (p :: q :: ps))
      with (p ++ String sep (join (String sep "") (q :: ps)))%string.
    rewrite split_app by done. by rewrite IH.
Qed.

Lemma index_app_first x before after :
  x ∉ before → index x (before ++ x :: after) = Some (length before).
Proof.
  induction before as [|p before IH]; simpl; intros Hx.
  - by rewrite String.eqb_refl.
  - apply not_elem_of_cons in Hx as [Hne Hx].
    destruct (String.eqb_spec p x); [congruence|]. by rewrite IH.
Qed.

Lemma index_none x parts : x ∉ parts → index x parts = None.
Proof.
  induction parts as [|p parts IH]; simpl; intros Hx; [done|].
  apply not_elem_of_cons in Hx as [Hne Hx].
  destruct (String.eqb_spec p x); [congruence|]. by rewrite IH.
Qed.

End name_facts.

(** X15.  The name shown for a project directory is what follows the first
    component [dev] of the directory name, later components [dev] included;
    it is the directory name itself when no component is [dev] or when
    nothing follows it.  It is empty only for the empty directory name. *)
Theorem project_name_after_dev :
  (∀ before after,
     "dev" ∉ before →
     Forall (λ p, mentions "-" p = false) (before ++ after) →
     join "-" after ≠ "" →
     App.project_name (join "-" (before ++ "dev" :: after)) = join "-" after) ∧
  (∀ path_encoded,
     "dev" ∉ App.split "-" path_encoded →
     App.project_name path_encoded = path_encoded) ∧
  (∀ before,
     "dev" ∉ before → Forall (λ p, mentions "-" p = false) before →
     App.project_name (join "-" (before ++ ["dev"]))
     = join "-" (before ++ ["dev"])) ∧
  (∀ path_encoded, path_encoded ≠ "" → App.project_name path_encoded ≠ "").
Proof.
  assert (∀ before after,
            "dev" ∉ before →
            Forall (λ p, mentions "-" p = false) (before ++ after) →
            App.index "dev" (App.split "-" (join "-" (before ++ "dev" :: after)))
            = Some (length before) ∧
            drop (S (length before))
              (App.split "-" (join "-" (before ++ "dev" :: after))) = after)
    as Hparts.
  { intros before after Hdev [Hb Ha]%Forall_app.
    rewrite (split_join "-"%char).
    - split; [by apply index_app_first|].
      rewrite <-(Nat.add_1_r (length before)), <-drop_drop, drop_app_length.
      done.
    - by destruct before.
    - apply Forall_app. split; [done|]. by constructor. }
  split; [|split; [|split]].
  - intros before after Hdev Hfree Hne. unfold App.project_name.
    destruct (Hparts before after Hdev Hfree) as [-> ->].
    by apply String.eqb_neq in Hne as ->.
  - intros path_encoded Hdev. unfold App.project_name.
    rewrite index_none by done. by destruct (String.eqb_spec path_encoded "").
  - intros before Hdev Hfree. unfold App.project_name.
    destruct (Hparts before [] Hdev) as [-> ->]; [by rewrite app_nil_r|].
    done.
  - intros path_encoded Hne. unfold App.project_name.
    destruct (App.index "dev" (App.split "-" path_encoded)) as [dev_index|].
    + by destruct (String.eqb_spec (join "-" (drop (S dev_index)
                                       (App.split "-" path_encoded))) "").
    + by destruct (String.eqb_spec path_encoded "").
Qed.

(** The example of the source: [-Users-Reed-dev-my-project] is shown as
    [my-project]. *)
Example project_name_sample :
  App.project_name "-Users-Reed-dev-my-project" = "my-project" ∧
  App.project_name "-Users-Reed-dev-dev-tools" = "dev-tools" ∧
  App.project_name "-Users-Reed-notes" = "-Users-Reed-notes" ∧
  App.project_name "-Users-Reed-dev" = "-Users-Reed-dev".
Proof. vm_compute. done. Qed.

Section conversation_facts.
Import App.
Context (lib : Parser.datetime_lib) (e : Cache.env)
  (cache_manager : Cache.CacheManager).

Lemma fields_fresh messages :
  Cache.fields <$> (without_children <$> fresh messages) = messages.
Proof.
  unfold fresh. rewrite <-!list_fmap_compose.
  rewrite <-(list_fmap_id messages) at 2. by apply list_fmap_ext.
Qed.

(** A call that finds the messages in the cache does not look at the log
    files. *)
Lemma parse_conversation_hit w project_path jsonl_files objs :
  Cache.get e cache_manager w project_path = Some objs →
  parse_conversation lib e cache_manager true w project_path
    (Some jsonl_files) true
  = match Tree.build (Cache.fields <$> objs) with
    | None => Ok None
    | Some tree =>
        match Tree.get_statistics tree with
        | None => Ok None
        | Some stats =>
            session_info ← Tree.get_session_info (Cache.fields <$> objs) ;;;
            Ok (Some ({| conv_messages := Cache.fields <$> objs;
                         conv_tree := tree; conv_stats := stats;
                         sessions_info := session_info |}, w))
        end
    end.
Proof. unfold parse_conversation. simpl. by intros ->. Qed.

(** A call that does not use the cache, or misses, parses and stores. *)
Lemma parse_conversation_miss w project_path jsonl_files use_cache :
  use_cache = false ∨ Cache.get e cache_manager w project_path = None →
  parse_conversation lib e cache_manager true w project_path
    (Some jsonl_files) use_cache
  = match Tree.build (Parser.parse_all lib jsonl_files) with
    | None => Ok None
    | Some tree =>
        match Tree.get_statistics tree with
        | None => Ok None
        | Some stats =>
            session_info
              ← Tree.get_session_info (Parser.parse_all lib jsonl_files) ;;;
            Ok (Some ({| conv_messages := Parser.parse_all lib jsonl_files;
                         conv_tree := tree; conv_stats := stats;
                         sessions_info := session_info |},
                      (Cache.set e w project_path
                         (fresh (Parser.parse_all lib jsonl_files))).2))
        end
    end.
Proof.
  unfold parse_conversation. intros [->|Hmiss]; [done|].
  rewrite Hmiss. by destruct use_cache.
Qed.

End conversation_facts.

(** X16.  With the cache enabled and writable, a call of
    [parse_conversation] that parsed the log files is repeated by the next
    call from the cache: as long as the latest modification time of the log
    files is unchanged and the entry has not expired, the next call returns
    the same messages, tree, statistics and session list, whatever the log
    files hold by then. *)
Theorem parse_conversation_served_from_cache (lib : Parser.datetime_lib)
    (e : Cache.env) (cache_manager : Cache.CacheManager)
    (w w1 w2 : Cache.world) (project_path : string)
    (jsonl_files : list Parser.file) (use_cache : bool)
    (r : App.Conversation) :
  App.parse_conversation lib e cache_manager true w project_path
    (Some jsonl_files) use_cache = Ok (Some (r, w1)) →
  use_cache = false ∨ Cache.get e cache_manager w project_path = None →
  Cache.cache_writable w = true →
  latest_mtime w2 project_path = latest_mtime w1 project_path →
  Cache.cache_files w2 = Cache.cache_files w1 →
  (Cache.now w2 - Cache.now w1 ≤ Cache.ttl_seconds cache_manager)%Z →
  App.conv_messages r = Parser.parse_all lib jsonl_files ∧
  ∀ jsonl_files',
    App.parse_conversation lib e cache_manager true w2 project_path
      (Some jsonl_files') true = Ok (Some (r, w2)).
Proof.
  intros Hfirst Hparsed Hwritable Hlogs Hfiles Hage.
  rewrite parse_conversation_miss in Hfirst by done.
  set (messages := Parser.parse_all lib jsonl_files) in *.
  assert (Cache.set e w project_path (App.fresh messages)
          = (true, (Cache.set e w project_path (App.fresh messages)).2))
    as Hset.
  { unfold Cache.set. by rewrite Hwritable. }
  destruct (Tree.build messages) as [tree|] eqn:Htree; [|done].
  destruct (Tree.get_statistics tree) as [stats|] eqn:Hstats; [|done].
  destruct (Tree.get_session_info messages) as [infos|] eqn:Hinfos; [|done].
  simpl in Hfirst. injection Hfirst as <- <-. split; [done|].
  intros jsonl_files'.
  rewrite (parse_conversation_hit lib e cache_manager w2 project_path
             jsonl_files' (without_children <$> App.fresh messages)).
  - rewrite fields_fresh. fold messages. by rewrite Htree, Hstats, Hinfos.
  - apply (get_after_set e cache_manager w project_path
             (App.fresh messages) _ w2 Hset Hfiles); [|done].
    apply key_of_latest. rewrite Hlogs. unfold latest_mtime.
    by rewrite (set_keeps_logs e _ _ _ _ _ Hset).
Qed.

Lemma parse_conversation_served_from_cache_witness :
    App.parse_conversation Samples.stub_datetime Samples.plain_env
      Samples.hour_cache true
      (Samples.later [20]%Z 5
         (Cache.set Samples.plain_env Samples.two_logs "proj"
            (App.fresh (Parser.parse_all Samples.stub_datetime
                          [Samples.file_late; Samples.file_early]))).2)
      "proj" (Some [Samples.file_a]) true
    = match App.parse_conversation Samples.stub_datetime Samples.plain_env
              Samples.hour_cache true Samples.two_logs "proj"
              (Some [Samples.file_late; Samples.file_early]) true with
      | Ok (Some (r, _)) =>
          Ok (Some (r, Samples.later [20]%Z 5
                         (Cache.set Samples.plain_env Samples.two_logs "proj"
                            (App.fresh (Parser.parse_all Samples.stub_datetime
                               [Samples.file_late; Samples.file_early]))).2))
      | other => other
      end.
Proof.
  eassert (App.parse_conversation Samples.stub_datetime Samples.plain_env
             Samples.hour_cache true Samples.two_logs "proj"
             (Some [Samples.file_late; Samples.file_early]) true
           = Ok (Some (_, _))) as H.
  { vm_compute. reflexivity. }
  rewrite H.
  refine (proj2 (parse_conversation_served_from_cache Samples.stub_datetime
                   Samples.plain_env Samples.hour_cache Samples.two_logs _ _
                   "proj" [Samples.file_late; Samples.file_early] true _ H
                   _ _ _ _ _) [Samples.file_a]).
  - right. reflexivity.
  - reflexivity.
  - reflexivity.
  - reflexivity.
  - vm_compute. discriminate.
Defined.

Section api_facts.
Import Parser Tree App.
Context (messages : list Message).






End api_facts.


(** On the sample the cycles make the conversion fail, whatever the fuel
    (here 50). *)
Example messages_data_sample :
  App.messages_data 50 <$> Tree.build Samples.forest_and_cycles = Some None ∧
  App.messages_data 50 <$> Tree.build (take 4 Samples.forest_and_cycles)
  = Some (Some ((λ m, Cache.to_dict (Cache.mkObj m []))
                  <$> take 4 Samples.forest_and_cycles)).
Proof. vm_compute. done. Qed.

Section order_facts.
Import Parser Tree.
Context (messages : list Message) (st : store) (Hok : store_ok messages st).

Abbreviation head_ok seen x e :=
  (match parent_of messages x with
   | None => e = 0%nat
   | Some p => ∃ y', e = S y' ∧ (p, y') ∈ seen
   end).






End order_facts.


(** ** The sanitizer *)

Section sanitizer_facts.
Import Sanitizer.
Context (_sanitize_string : string → string).

Abbreviation clean := (_sanitize_recursive _sanitize_string).

(** Induction on a JSON value, with the property at hand for the members
    of a list and the values of an object. *)
Lemma value_nested_ind (P : value → Prop) :
  P VNone → (∀ b, P (VBool b)) → (∀ n, P (VInt n)) → (∀ x, P (VFloat x)) →
  (∀ s, P (VStr s)) →
  (∀ l, Forall P l → P (VList l)) →
  (∀ d, Forall (λ kv, P kv.2) d → P (VDict d)) →
  ∀ v, P v.
Proof.
  intros HNone HBool HInt HFloat HStr HList HDict.
  fix IH 1. intros [ |b|n|x|s|l|d]; [done..| |].
  - apply HList. induction l as [|v l IHl]; constructor; [apply IH|apply IHl].
  - apply HDict. induction d as [|[k v] d IHd]; constructor; [apply IH|apply IHd].
Qed.

Lemma lookup_clean k d :
  lookup_key k
    (List.map (λ kv, match kv with (key, v) => (key, clean v) end) d)
  = clean <$> lookup_key k d.
Proof.
  induction d as [|[k' v] d IH]; simpl; [done|].
  destruct (String.eqb k' k); [done|apply IH].
Qed.

Lemma skeleton_clean data : skeleton (clean data) = skeleton data.
Proof.
  induction data as [ |b|n|x|s|l IH|d IH] using value_nested_ind; try done.
  - simpl. f_equal. induction IH as [|v l Hv _ IHl]; simpl; [done|].
    by rewrite Hv, IHl.
  - simpl. f_equal. induction IH as [|[k v] d Hv _ IHd]; simpl; [done|].
    simpl in Hv. by rewrite Hv, IHd.
Qed.

End sanitizer_facts.

(** X19.  Sanitizing changes strings only, and only where they are values:
    a sanitized value has the structure, the object keys, the numbers,
    booleans and nulls of the original; reading a key of a sanitized object
    gives the sanitized entry; and a disabled sanitizer returns its input.
    (The substitutions made inside a string are those of the [re]
    library.) *)
Theorem sanitize_keeps_structure (_sanitize_string : string → string)
    (data : value) :
  skeleton (Sanitizer.sanitize _sanitize_string true data) = skeleton data ∧
  (∀ k, get (Sanitizer.sanitize _sanitize_string true data) k
        = Sanitizer.sanitize _sanitize_string true (get data k)) ∧
  (∀ k, has_key (Sanitizer.sanitize _sanitize_string true data) k
        = has_key data k) ∧
  Sanitizer.sanitize _sanitize_string false data = data.
Proof.
  unfold Sanitizer.sanitize. split; [apply skeleton_clean|].
  split; [|split; [|done]].
  - intros k. unfold get, get_or. destruct data as [ | | | | | |d]; try done.
    simpl. rewrite lookup_clean. by destruct (lookup_key k d).
  - intros k. unfold has_key. destruct data as [ | | | | | |d]; try done.
    simpl. rewrite lookup_clean. by destruct (lookup_key k d).
Qed.

(** ** The list of projects *)

Section project_list_facts.
Import App.
Context (lower : string → string) (CONVERSATIONS_DIR : string).

Lemma map_r_Ok {A B} (f : A → result B) l ys :
  Cache.map_r f l = Ok ys ↔ Forall2 (λ x y, f x = Ok y) l ys.
Proof.
  revert ys. induction l as [|x l IH]; intros ys; simpl.
  - split; [intros [= <-]; constructor|by intros ->%Forall2_nil_inv_l].
  - destruct (f x) as [y|] eqn:Hy; simpl.
    + destruct (Cache.map_r f l) as [ys'|]; simpl.
      * split.
        -- intros [= <-]. constructor; [done|]. by apply IH.
        -- intros (y' & ys'' & Hy' & H & ->)%Forall2_cons_inv_l.
           apply IH in H. congruence.
      * split; [done|].
        intros (y' & ys'' & _ & H & ->)%Forall2_cons_inv_l.
        by apply IH in H.
    + split; [done|].
      intros (y' & ys'' & Hy' & _)%Forall2_cons_inv_l. congruence.
Qed.

Lemma map_r_total {A B} (f : A → result B) l :
  Forall (λ x, f x ≠ Raise) l → ∃ ys, Cache.map_r f l = Ok ys.
Proof.
  induction 1 as [|x l Hx _ [ys IH]]; [by eexists|]. simpl.
  destruct (f x) as [y|]; [|done]. simpl. rewrite IH. by eexists.
Qed.

(** What the loop body makes of a directory entry. *)
Lemma project_of_Some project_dir p :
  project_of CONVERSATIONS_DIR project_dir = Ok (Some p)
  ↔ shows CONVERSATIONS_DIR project_dir p.
Proof.
  unfold project_of, shows. destruct p as [i nm pa fc]. simpl.
  destruct (entry_is_dir project_dir); simpl; [|by split; [|intros [? _]]].
  destruct (String.prefix "." _); [by split; [|intros (_ & ? & _)]|].
  destruct (entry_logs project_dir) as [[|n]|]; simpl.
  - split; [done|]. by intros (_ & _ & (n & [=] & _) & _).
  - split.
    + intros [= <- <- <- <-]. split; [done|]. split; [done|].
      split; [by exists n|done].
    + intros (_ & _ & (n' & [= <-] & ->) & -> & -> & ->). done.
  - split; [done|]. by intros (_ & _ & (n & [=] & _) & _).
Qed.

Lemma project_of_Raise project_dir :
  project_of CONVERSATIONS_DIR project_dir = Raise
  ↔ listing_fails project_dir.
Proof.
  unfold project_of, listing_fails.
  destruct (entry_is_dir project_dir); simpl; [|by split; [|intros [? _]]].
  destruct (String.prefix "." _); [by split; [|intros (_ & ? & _)]|].
  destruct (entry_logs project_dir) as [[|n]|]; simpl;
    by split; [|intros (_ & _ & ?)].
Qed.

End project_list_facts.

(** X20.  [get_available_projects] lists the entries of the conversations
    directory that are directories, whose name does not start with a dot
    and which hold at least one log file, and no other project; each with
    its directory name as id, its display name, path and number of log
    files; the list is ascending in the lower-cased display name.  When
    listing the log files of a visible directory raises, the result is the
    empty list. *)
Theorem available_projects_listed (lower : string → string)
    (CONVERSATIONS_DIR : string) (entries : list App.dir_entry) :
  StronglySorted
    (λ a b, String.le (lower (App.name a)) (lower (App.name b)))
    (App.get_available_projects lower CONVERSATIONS_DIR (Ok entries)) ∧
  (∀ p, p ∈ App.get_available_projects lower CONVERSATIONS_DIR (Ok entries) →
     ∃ project_dir, project_dir ∈ entries ∧
       shows CONVERSATIONS_DIR project_dir p) ∧
  (Forall (λ d, ¬ listing_fails d) entries →
   ∀ project_dir p, project_dir ∈ entries →
     shows CONVERSATIONS_DIR project_dir p →
     p ∈ App.get_available_projects lower CONVERSATIONS_DIR (Ok entries)) ∧
  (Exists listing_fails entries →
   App.get_available_projects lower CONVERSATIONS_DIR (Ok entries) = []).
Proof.
  unfold App.get_available_projects. simpl.
  destruct (Cache.map_r (App.project_of CONVERSATIONS_DIR) entries)
    as [projects|] eqn:Hmap.
  - apply map_r_Ok in Hmap. split; [|split; [|split]].
    + apply (sorted_by_text (λ p, lower (App.name p))), sort_sorted, _.
    + intros p. rewrite sort_perm, list_elem_of_omap.
      intros (o & Ho & ->).
      apply list_elem_of_lookup in Ho as [i Hi].
      destruct (Forall2_lookup_r _ _ _ _ _ Hmap Hi) as (d & Hd & Hp).
      exists d. split; [by eapply list_elem_of_lookup_2|].
      by apply project_of_Some.
    + intros _ d p Hd Hp. apply project_of_Some in Hp.
      rewrite sort_perm, list_elem_of_omap.
      exists (Some p). split; [|done].
      apply list_elem_of_lookup in Hd as [i Hi].
      destruct (Forall2_lookup_l _ _ _ _ _ Hmap Hi) as (o & Ho & Hdo).
      rewrite Hp in Hdo. injection Hdo as <-.
      by eapply list_elem_of_lookup_2.
    + intros (d & Hd & Hraise)%Exists_exists. exfalso.
      apply (project_of_Raise CONVERSATIONS_DIR) in Hraise.
      apply list_elem_of_lookup in Hd as [i Hi].
      destruct (Forall2_lookup_l _ _ _ _ _ Hmap Hi) as (o & _ & Hdo).
      rewrite Hraise in Hdo. done.
  - split; [constructor|]. split; [by intros p ?%elem_of_nil|].
    split; [|done]. intros Hall.
    destruct (map_r_total (App.project_of CONVERSATIONS_DIR) entries)
      as [ys Hys]; [|congruence].
    eapply Forall_impl; [exact Hall|]. intros d Hd Hraise.
    apply Hd. by apply (project_of_Raise CONVERSATIONS_DIR).
Qed.

(** A listing with a file, a hidden directory, a directory without log
    files and two projects: the projects come out by lower-cased name (the
    stand-in for [str.lower] is the identity). *)
Example available_projects_sample :
  App.project_id <$>
    App.get_available_projects (λ s, s) "projects"
      (Ok [ {| App.entry_name := "notes.txt"; App.entry_is_dir := false;
               App.entry_logs := Ok 0%nat |};
            {| App.entry_name := ".git"; App.entry_is_dir := true;
               App.entry_logs := Ok 3%nat |};
            {| App.entry_name := "-Users-Reed-dev-zeta"; App.entry_is_dir := true;
               App.entry_logs := Ok 1%nat |};
            {| App.entry_name := "-Users-Reed-dev-empty"; App.entry_is_dir := true;
               App.entry_logs := Ok 0%nat |};
            {| App.entry_name := "-Users-Reed-dev-alpha"; App.entry_is_dir := true;
               App.entry_logs := Ok 2%nat |} ])
  = ["-Users-Reed-dev-alpha"; "-Users-Reed-dev-zeta"].
Proof. vm_compute. reflexivity. Qed.
